(** * The retrieval and indexing engine of the notebook server

    A shallow embedding of [src/vectorProcessor.js] (class [VectorProcessor])
    and of the [search_notes] tool handler of [src/mcpServer.js], followed by
    the properties of the engine's specification.

    Conventions of the embedding.
    - A JavaScript string is a list of code units; the model keeps the code
      units below 256 (Latin-1), so a character is an [ascii].  [length],
      [slice], [includes], [startsWith], [split], [trim] and [toLowerCase]
      are written out on these lists.
    - A score is a JavaScript number; its arithmetic (sums of the decimal
      weights, [Math.min], [<] and the sign of a difference) is carried out
      in exact rationals [Q].
    - A count (the [limit] of a search, the index of a chunk, the calendar
      year) is a natural number.
    - The embedding service and the vector store are external: they are a
      record of oracles that answer a request from the history of all earlier
      requests and answers, and every request is logged in that history.
    - An [async] method is a computation that threads the history and either
      returns a value or throws. *)

From Stdlib Require Import Bool Arith NArith ZArith QArith Lia Lqa.
From Stdlib Require Import Ascii String DecimalString DecimalNat.
From Stdlib Require Import List Sorted Permutation.
Import ListNotations.
Close Scope Q_scope.
Open Scope nat_scope.
Open Scope list_scope.

(* ------------------------------------------------------------------ *)
(** ** JavaScript strings *)

Module JS.

Definition jstring := list ascii.

(** A string literal of the source. *)
Definition str (s : string) : jstring := list_ascii_of_string s.

Definition code (c : ascii) : N := N_of_ascii c.

Definition between (lo hi : N) (c : ascii) : bool :=
  (lo <=? code c)%N && (code c <=? hi)%N.

(** [\s] of a regular expression, which is also what [trim] removes:
    TAB, LF, VT, FF, CR, space and the no-break space. *)
Definition is_ws (c : ascii) : bool :=
  between 9 13 c || (code c =? 32)%N || (code c =? 160)%N.

(** The line feed, [\n]. *)
Definition is_nl (c : ascii) : bool := (code c =? 10)%N.

(** A line terminator, which [.] of a regular expression does not match. *)
Definition is_line_terminator (c : ascii) : bool :=
  (code c =? 10)%N || (code c =? 13)%N.

(** [\d]. *)
Definition is_digit (c : ascii) : bool := between 48 57 c.

(** [\w]: letters, digits and the underscore. *)
Definition is_word (c : ascii) : bool :=
  between 97 122 c || between 65 90 c || is_digit c || (code c =? 95)%N.

(** [toLowerCase] on one code unit: A-Z and the accented capitals of
    Latin-1 (all of 192..222 but the multiplication sign) move up by 32. *)
Definition lower_char (c : ascii) : ascii :=
  if between 65 90 c
     || (between 192 222 c && negb (code c =? 215)%N)
  then ascii_of_N (code c + 32)
  else c.

Definition toLowerCase (s : jstring) : jstring := map lower_char s.

Definition string_eqb (a b : jstring) : bool :=
  if list_eq_dec ascii_dec a b then true else false.

(** [s.startsWith(p)]. *)
Fixpoint startsWith (s p : jstring) : bool :=
  match p, s with
  | [], _ => true
  | _ :: _, [] => false
  | c :: p', d :: s' => Ascii.eqb c d && startsWith s' p'
  end.

(** [s.includes(sub)]: [sub] occurs in [s] at some position. *)
Fixpoint includes (s sub : jstring) : bool :=
  startsWith s sub
  || match s with
     | [] => false
     | _ :: s' => includes s' sub
     end.

(** [s.endsWith(p)]. *)
Definition endsWith (s p : jstring) : bool := startsWith (rev s) (rev p).

Fixpoint dropWhile (f : ascii -> bool) (s : jstring) : jstring :=
  match s with
  | [] => []
  | c :: s' => if f c then dropWhile f s' else s
  end.

Fixpoint takeWhile (f : ascii -> bool) (s : jstring) : jstring :=
  match s with
  | [] => []
  | c :: s' => if f c then c :: takeWhile f s' else []
  end.

(** [s.trim()]. *)
Definition trim (s : jstring) : jstring :=
  rev (dropWhile is_ws (rev (dropWhile is_ws s))).

(** A string in a condition: the empty string is falsy. *)
Definition truthy (s : jstring) : bool :=
  match s with [] => false | _ :: _ => true end.

(** [s.slice(-n)] for a positive [n]: the last [n] code units, or all of
    [s] when it is shorter. *)
Definition slice_last (n : nat) (s : jstring) : jstring :=
  skipn (length s - n) s.

(** [s.split(/\s+/)]: the pieces between the maximal runs of whitespace.
    [in_sep] says that the previous code unit belonged to a separator;
    [cur] is the piece being read, reversed. *)
Fixpoint split_ws_go (s : jstring) (in_sep : bool) (cur : jstring)
  : list jstring :=
  match s with
  | [] => [rev cur]
  | c :: r =>
      if is_ws c then
        if in_sep then split_ws_go r true cur
        else rev cur :: split_ws_go r true []
      else split_ws_go r false (c :: cur)
  end.

Definition split_ws (s : jstring) : list jstring := split_ws_go s false [].

(** [s.split(sep)] for a one-character separator. *)
Fixpoint split_char_go (sep : ascii) (s : jstring) (cur : jstring)
  : list jstring :=
  match s with
  | [] => [rev cur]
  | c :: r =>
      if Ascii.eqb c sep then rev cur :: split_char_go sep r []
      else split_char_go sep r (c :: cur)
  end.

Definition split_char (sep : ascii) (s : jstring) : list jstring :=
  split_char_go sep s [].

(** A number in a template literal: the decimal numeral of a natural
    number. *)
Definition of_nat (n : nat) : jstring :=
  list_ascii_of_string (NilEmpty.string_of_uint (Nat.to_uint n)).

(** [s.padStart(2, '0')]. *)
Definition padStart2 (s : jstring) : jstring :=
  match s with
  | [] => str "00"
  | [c] => str "0" ++ [c]
  | _ => s
  end.

(** [[...new Set(xs)]]: the first occurrence of every element, in the
    order of insertion. *)
Fixpoint uniq_go (seen : list jstring) (xs : list jstring) : list jstring :=
  match xs with
  | [] => []
  | x :: r =>
      if existsb (string_eqb x) seen then uniq_go seen r
      else x :: uniq_go (x :: seen) r
  end.

Definition uniq (xs : list jstring) : list jstring := uniq_go [] xs.

End JS.

Import JS.

(* ------------------------------------------------------------------ *)
(** ** Documents *)

(** The [tags] field of a front matter: an array, or one value. *)
Inductive fm_tags :=
| TagArray (ts : list jstring)
| TagOne (t : jstring).

(** The front matter of a note, as far as the engine reads it; the rest of
    the map is carried along unread in [fm_rest]. *)
Record frontmatter := {
  fm_title : option jstring;
  fm_tags_field : option fm_tags;
  fm_rest : list (jstring * jstring)
}.

Record document := {
  doc_id : jstring;
  doc_path : jstring;
  doc_content : jstring;
  doc_frontmatter : option frontmatter;
  doc_lastModified : N
}.

(* ------------------------------------------------------------------ *)
(** ** Chunker: [chunkDocument] *)

Module Chunker.

Record chunk := { text : jstring; start : nat }.

Definition maxChunkSize : nat := 1000.
Definition overlap : nat := 100.

(** The rest of a match of [/\n\s*\n/] once its first [\n] is read: [\s*]
    is greedy and gives back as little as it must, so the match ends with
    the last line feed of the whitespace that follows.  [sep_len r] is the
    number of code units of [r] in the match, if there is a match. *)
Fixpoint sep_len (r : jstring) : option nat :=
  match r with
  | [] => None
  | c :: r' =>
      if is_ws c then
        match sep_len r' with
        | Some n => Some (S n)
        | None => if is_nl c then Some 1 else None
        end
      else None
  end.

(** [text.split(/\n\s*\n/)].  [skip] counts the code units of the current
    separator that are still to be passed over; [cur] is the paragraph
    being read, reversed. *)
Fixpoint split_go (s : jstring) (skip : nat) (cur : jstring)
  : list jstring :=
  match s with
  | [] => [rev cur]
  | c :: r =>
      match skip with
      | S k => split_go r k cur
      | O =>
          if is_nl c then
            match sep_len r with
            | Some n => rev cur :: split_go r n []
            | None => split_go r 0 (c :: cur)
            end
          else split_go r 0 (c :: cur)
      end
  end.

Definition paragraphs (content : jstring) : list jstring :=
  split_go content 0 [].

(** The two variables of the loop. *)
Record state := { chunks : list chunk; currentChunk : jstring }.

Definition flush (st : state) : list chunk :=
  chunks st ++
  [ {| text := trim (currentChunk st);
       start := length (chunks st) * (maxChunkSize - overlap) |} ].

(** One turn of [for (const paragraph of paragraphs)]. *)
Definition step (st : state) (paragraph : jstring) : state :=
  if (maxChunkSize <? length (currentChunk st) + length paragraph)
     && (0 <? length (currentChunk st))
  then
    {| chunks := flush st;
       currentChunk := slice_last overlap (currentChunk st) ++ paragraph |}
  else
    {| chunks := chunks st;
       currentChunk :=
         currentChunk st
         ++ (if truthy (currentChunk st) then str (String "010" (String "010" "")) else [])
         ++ paragraph |}.

Definition run (ps : list jstring) : state :=
  fold_left step ps {| chunks := []; currentChunk := [] |}.

Definition chunkDocument (d : document) : list chunk :=
  let st := run (paragraphs (doc_content d)) in
  let chunks' := if truthy (trim (currentChunk st)) then flush st else chunks st in
  if 0 <? length chunks' then chunks'
  else [ {| text := trim (doc_content d); start := 0 |} ].

End Chunker.

(* ------------------------------------------------------------------ *)
(** ** The MD5 digest of [crypto.createHash('md5')] (RFC 1321) *)

Module MD5.

Local Open Scope N_scope.

Definition w32 (x : N) : N := x mod 2 ^ 32.
Definition add32 (a b : N) : N := w32 (a + b).
Definition not32 (x : N) : N := N.lxor (w32 x) 0xffffffff.
Definition rotl32 (x s : N) : N :=
  w32 (N.lor (N.shiftl (w32 x) s) (N.shiftr (w32 x) (32 - s))).

(** The sine table: [K i = floor (2^32 * |sin (i + 1)|)]. *)
Definition K : list N :=
  [ 0xd76aa478; 0xe8c7b756; 0x242070db; 0xc1bdceee;
    0xf57c0faf; 0x4787c62a; 0xa8304613; 0xfd469501;
    0x698098d8; 0x8b44f7af; 0xffff5bb1; 0x895cd7be;
    0x6b901122; 0xfd987193; 0xa679438e; 0x49b40821;
    0xf61e2562; 0xc040b340; 0x265e5a51; 0xe9b6c7aa;
    0xd62f105d; 0x02441453; 0xd8a1e681; 0xe7d3fbc8;
    0x21e1cde6; 0xc33707d6; 0xf4d50d87; 0x455a14ed;
    0xa9e3e905; 0xfcefa3f8; 0x676f02d9; 0x8d2a4c8a;
    0xfffa3942; 0x8771f681; 0x6d9d6122; 0xfde5380c;
    0xa4beea44; 0x4bdecfa9; 0xf6bb4b60; 0xbebfbc70;
    0x289b7ec6; 0xeaa127fa; 0xd4ef3085; 0x04881d05;
    0xd9d4d039; 0xe6db99e5; 0x1fa27cf8; 0xc4ac5665;
    0xf4292244; 0x432aff97; 0xab9423a7; 0xfc93a039;
    0x655b59c3; 0x8f0ccc92; 0xffeff47d; 0x85845dd1;
    0x6fa87e4f; 0xfe2ce6e0; 0xa3014314; 0x4e0811a1;
    0xf7537e82; 0xbd3af235; 0x2ad7d2bb; 0xeb86d391 ].

(** The rotation amounts of the four rounds. *)
Definition shifts : list N :=
  [ 7; 12; 17; 22; 7; 12; 17; 22; 7; 12; 17; 22; 7; 12; 17; 22;
    5;  9; 14; 20; 5;  9; 14; 20; 5;  9; 14; 20; 5;  9; 14; 20;
    4; 11; 16; 23; 4; 11; 16; 23; 4; 11; 16; 23; 4; 11; 16; 23;
    6; 10; 15; 21; 6; 10; 15; 21; 6; 10; 15; 21; 6; 10; 15; 21 ].

Record regs := { rA : N; rB : N; rC : N; rD : N }.

Definition init : regs :=
  {| rA := 0x67452301; rB := 0xefcdab89; rC := 0x98badcfe; rD := 0x10325476 |}.

Definition at_ (l : list N) (i : N) : N := nth (N.to_nat i) l 0.

(** Operation [i] (0..63) on the sixteen words [m] of a block. *)
Definition operation (m : list N) (r : regs) (i : N) : regs :=
  let '(f, g) :=
    if i <? 16 then
      (N.lor (N.land (rB r) (rC r)) (N.land (not32 (rB r)) (rD r)), i)
    else if i <? 32 then
      (N.lor (N.land (rD r) (rB r)) (N.land (not32 (rD r)) (rC r)),
       (5 * i + 1) mod 16)
    else if i <? 48 then
      (N.lxor (rB r) (N.lxor (rC r) (rD r)), (3 * i + 5) mod 16)
    else
      (N.lxor (rC r) (N.lor (rB r) (not32 (rD r))), (7 * i) mod 16) in
  let f' := add32 (add32 (add32 f (rA r)) (at_ K i)) (at_ m g) in
  {| rA := rD r;
     rB := add32 (rB r) (rotl32 f' (at_ shifts i));
     rC := rB r;
     rD := rC r |}.

Definition indices : list N := map N.of_nat (seq 0 64).

(** Four bytes, least significant first, make a word. *)
Fixpoint words_of (bytes : list N) : list N :=
  match bytes with
  | b0 :: b1 :: b2 :: b3 :: rest =>
      (b0 + 2 ^ 8 * b1 + 2 ^ 16 * b2 + 2 ^ 24 * b3) :: words_of rest
  | _ => []
  end.

Definition process_block (r : regs) (block : list N) : regs :=
  let r' := fold_left (operation (words_of block)) indices r in
  {| rA := add32 (rA r) (rA r'); rB := add32 (rB r) (rB r');
     rC := add32 (rC r) (rC r'); rD := add32 (rD r) (rD r') |}.

(** The bytes of [x], least significant first. *)
Fixpoint le_bytes (n : nat) (x : N) : list N :=
  match n with
  | O => []
  | S n' => (x mod 256) :: le_bytes n' (x / 256)
  end.

(** Padding: a one bit, zeros up to 56 modulo 64, and the length of the
    message in bits on eight bytes. *)
Definition pad (msg : list N) : list N :=
  let len := N.of_nat (length msg) in
  let zeros := N.to_nat ((55 + 64 - len mod 64) mod 64) in
  msg ++ [0x80] ++ repeat 0 zeros ++ le_bytes 8 ((8 * len) mod 2 ^ 64).

(** [fuel] bounds the number of blocks; [length bytes] is enough. *)
Fixpoint blocks (fuel : nat) (bytes : list N) : list (list N) :=
  match fuel, bytes with
  | S fuel', _ :: _ => firstn 64 bytes :: blocks fuel' (skipn 64 bytes)
  | _, _ => []
  end.

Definition digest (msg : list N) : regs :=
  let p := pad msg in
  fold_left process_block (blocks (length p) p) init.

Definition digest_bytes (r : regs) : list N :=
  le_bytes 4 (rA r) ++ le_bytes 4 (rB r) ++ le_bytes 4 (rC r)
  ++ le_bytes 4 (rD r).

Definition hex_digits : jstring := str "0123456789abcdef".

Definition hex_digit (n : N) : ascii := nth (N.to_nat n) hex_digits "0"%char.

Definition hex_byte (b : N) : jstring := [hex_digit (b / 16); hex_digit (b mod 16)].

(** [.digest('hex')]. *)
Definition hex (r : regs) : jstring := concat (map hex_byte (digest_bytes r)).

(** [.update(input)] of a string hashes its UTF-8 encoding: one byte for a
    code unit below 128, two bytes for the others of Latin-1. *)
Definition utf8_unit (c : ascii) : list N :=
  if code c <? 128 then [code c]
  else [0xC0 + code c / 64; 0x80 + code c mod 64].

Definition utf8 (s : jstring) : list N := flat_map utf8_unit s.

Definition md5_hex (input : jstring) : jstring := hex (digest (utf8 input)).

End MD5.

(* ------------------------------------------------------------------ *)
(** ** PointIdentity: [generatePointId] *)

Definition generatePointId (filePath : jstring) (chunkIndex : nat) : jstring :=
  let input := filePath ++ str "_chunk_" ++ of_nat chunkIndex in
  MD5.md5_hex input.

(* ------------------------------------------------------------------ *)
(** ** Title and tags of a document: [extractTitle], [extractTags] *)

Module Meta.

Definition hash_sign (c : ascii) : bool := (code c =? 35)%N.

(** [line.match(/^#\s+(.+)$/)], giving [match[1]].  The line has no line
    feed.  After the hash sign comes the whitespace [w], then [tail].  When
    [tail] is not empty, [\s+] takes all of [w] and [(.+)] must take all of
    [tail], which it can unless a line terminator is in it.  When [tail] is
    empty, [\s+] gives its last code unit back to [(.+)]. *)
Definition heading (line : jstring) : option jstring :=
  match line with
  | c :: rest =>
      if hash_sign c then
        let w := takeWhile is_ws rest in
        let tail := dropWhile is_ws rest in
        match w, tail with
        | [], _ => None
        | _ :: _, _ :: _ =>
            if existsb is_line_terminator tail then None else Some tail
        | _ :: _, [] =>
            match rev w with
            | l :: _ :: _ => if is_line_terminator l then None else Some [l]
            | _ => None
            end
        end
      else None
  | [] => None
  end.

Fixpoint first_heading (lines : list jstring) : option jstring :=
  match lines with
  | [] => None
  | line :: rest =>
      match heading line with
      | Some m => Some (trim m)
      | None => first_heading rest
      end
  end.

(** [path.replace(/\.md$/, '')]. *)
Definition strip_md (path : jstring) : jstring :=
  if endsWith path (str ".md") then firstn (length path - 3) path else path.

Definition extractTitle (d : document) : jstring :=
  match
    match doc_frontmatter d with
    | Some fm =>
        match fm_title fm with
        | Some t => if truthy t then Some t else None
        | None => None
        end
    | None => None
    end
  with
  | Some t => t
  | None =>
      match first_heading (split_char "010"%char (doc_content d)) with
      | Some t => t
      | None => last (split_char "/"%char (strip_md (doc_path d))) []
      end
  end.

(** [[\w-]] *)
Definition is_tag_char (c : ascii) : bool := is_word c || (code c =? 45)%N.

(** [content.match(/#[\w-]+/g)] with the hash sign of every match cut off
    ([tag.substring(1)]); [skip] counts the code units of the current match
    still to be passed over. *)
Fixpoint hashtags (s : jstring) (skip : nat) : list jstring :=
  match s with
  | [] => []
  | c :: r =>
      match skip with
      | S k => hashtags r k
      | O =>
          if hash_sign c then
            match takeWhile is_tag_char r with
            | [] => hashtags r 0
            | run => run :: hashtags r (length run)
            end
          else hashtags r 0
      end
  end.

Definition extractTags (d : document) : list jstring :=
  let from_frontmatter :=
    match doc_frontmatter d with
    | Some fm =>
        match fm_tags_field fm with
        | Some (TagArray ts) => ts
        | Some (TagOne t) => if truthy t then [t] else []
        | None => []
        end
    | None => []
    end in
  uniq (from_frontmatter ++ hashtags (doc_content d) 0).

End Meta.

(* ------------------------------------------------------------------ *)
(** ** QueryExpander: [expandQuery] *)

Module QueryExpander.

Definition monthMap : list (jstring * jstring) :=
  [ (str "january", str "01"); (str "february", str "02");
    (str "march", str "03"); (str "april", str "04");
    (str "may", str "05"); (str "june", str "06");
    (str "july", str "07"); (str "august", str "08");
    (str "september", str "09"); (str "october", str "10");
    (str "november", str "11"); (str "december", str "12") ].

(** [monthMap[name]]; a missing key reads as [undefined]. *)
Definition month_code (name : jstring) : jstring :=
  match find (fun m => string_eqb (fst m) name) monthMap with
  | Some m => snd m
  | None => str "undefined"
  end.

Definition is_word_at (c : option ascii) : bool :=
  match c with
  | Some c => is_word c
  | None => false
  end.

(** [\b] between two neighbours, [None] standing for an end of the input. *)
Definition word_boundary (prev next : option ascii) : bool :=
  xorb (is_word_at prev) (is_word_at next).

Definition ordinal_suffixes : list jstring :=
  [ str "st"; str "nd"; str "rd"; str "th" ].

(** [(?:st|nd|rd|th)?\b] read at [r], the code unit before [r] being
    [prev]: the suffix is tried first, then the empty alternative. *)
Definition suffix_then_boundary (prev : ascii) (r : jstring) : bool :=
  existsb
    (fun suf =>
       startsWith r suf
       && word_boundary (Some (last suf prev)) (hd_error (skipn (length suf) r)))
    ordinal_suffixes
  || word_boundary (Some prev) (hd_error r).

(** [(\d{1,2})(?:st|nd|rd|th)?\b] read at [r]: two digits are tried
    first, then one. *)
Definition day_then_boundary (r : jstring) : option jstring :=
  match r with
  | d1 :: d2 :: r2 =>
      if is_digit d1 && is_digit d2 && suffix_then_boundary d2 r2
      then Some [d1; d2]
      else if is_digit d1 && suffix_then_boundary d1 (d2 :: r2)
      then Some [d1]
      else None
  | [d1] =>
      if is_digit d1 && suffix_then_boundary d1 [] then Some [d1] else None
  | [] => None
  end.

(** A match of
    [/\b(january|...|december)\s+(\d{1,2})(?:st|nd|rd|th)?\b/]
    that starts at the head of [s], the code unit before [s] being [prev];
    the result is [(match[1], match[2])].  No month name is the beginning of
    another, so at most one alternative applies; [\s+] can only stop at the
    end of the whitespace, since a digit has to follow. *)
Definition match_date_here (prev : option ascii) (s : jstring)
  : option (jstring * jstring) :=
  match find (fun m => startsWith s (fst m)) monthMap with
  | Some (name, _) =>
      if word_boundary prev (hd_error s) then
        let r := skipn (length name) s in
        match takeWhile is_ws r with
        | [] => None
        | _ :: _ =>
            match day_then_boundary (dropWhile is_ws r) with
            | Some day => Some (name, day)
            | None => None
            end
        end
      else None
  | None => None
  end.

(** [lowerQuery.match(...)]: the leftmost match. *)
Fixpoint find_date (prev : option ascii) (s : jstring)
  : option (jstring * jstring) :=
  match match_date_here prev s with
  | Some m => Some m
  | None =>
      match s with
      | [] => None
      | c :: r => find_date (Some c) r
      end
  end.

Definition stopWords : list jstring :=
  [ str "the"; str "and"; str "for"; str "from"; str "about"; str "can";
    str "you"; str "tell"; str "anything"; str "notes" ].

Definition dateVariations (year : nat) (m : jstring * jstring) : list jstring :=
  let month := month_code (fst m) in
  let day := padStart2 (snd m) in
  [ month ++ str "-" ++ day;
    of_nat year ++ str "-" ++ month ++ str "-" ++ day;
    month ++ str "/" ++ day;
    month ++ day;
    of_nat year ++ month ++ day;
    fst m ++ str " " ++ snd m;
    fst m ++ str "-" ++ snd m;
    day;
    month ].

(** The array [queries] before the duplicates are removed.  [year] is the
    value of [new Date().getFullYear()] at the time of the call. *)
Definition candidates (year : nat) (query : jstring) : list jstring :=
  let lowerQuery := toLowerCase query in
  let match_ := find_date None lowerQuery in
  let dates :=
    match match_ with
    | Some m => dateVariations year m ++ dateVariations year m
    | None => []
    end in
  let meaningfulWords :=
    filter
      (fun word =>
         (2 <? length word) && negb (existsb (string_eqb word) stopWords))
      (split_ws lowerQuery) in
  let meeting :=
    if includes lowerQuery (str "meeting") then
      [ str "## Meetings"; str "Meetings & Appointments"; str "meeting notes";
        str "appointment"; str "Meeting"; str "meetings" ]
    else [] in
  let daily :=
    if includes lowerQuery (str "daily") then
      [ str "daily note"; str "## Daily"; str "Daily"; str "today" ]
    else [] in
  let appointment :=
    if includes lowerQuery (str "appointment") then
      [ str "## Appointments"; str "meeting"; str "schedule";
        str "Appointment" ]
    else [] in
  let combined :=
    match match_ with
    | Some m =>
        if includes lowerQuery (str "meeting") then
          let month := month_code (fst m) in
          let day := padStart2 (snd m) in
          [ month ++ str "-" ++ day ++ str " meeting";
            month ++ str "-" ++ day ++ str " Meeting";
            str "Meeting " ++ month ++ str "-" ++ day ]
        else []
    | None => []
    end in
  [query] ++ dates ++ meaningfulWords ++ meeting ++ daily ++ appointment
  ++ combined.

Definition expandQuery (year : nat) (query : jstring) : list jstring :=
  uniq (candidates year query).

End QueryExpander.

(* ------------------------------------------------------------------ *)
(** ** Points, payloads and search hits *)

Record payload := {
  file_path : jstring;
  chunk_index : nat;
  text : jstring;
  title : option jstring;
  tags : list jstring;
  frontmatter_ : option frontmatter;
  last_modified : N
}.

Definition vector := list Q.

Record point := {
  id : jstring;
  vector_ : vector;
  payload_ : payload
}.

(** A point returned by the similarity search of the store. *)
Record scored_point := {
  sp_score : Q;
  sp_payload : payload
}.

Inductive search_type := semantic | full_text.

(** An entry of [allResults]:
    [{ score, searchQuery, searchType, ...point.payload }]. *)
Record hit := {
  score : Q;
  searchQuery : jstring;
  searchType : search_type;
  hit_payload : payload
}.

(* ------------------------------------------------------------------ *)
(** ** Lexical scoring: [calculateTextScore] *)

Module Scoring.

Local Open Scope Q_scope.

Definition bonus (cond : bool) (w : Q) (score : Q) : Q :=
  if cond then score + w else score.

(** [a < b] on numbers. *)
Definition ltb (a b : Q) : bool := negb (Qle_bool b a).

(** [Math.min]. *)
Definition min (a b : Q) : Q := if ltb b a then b else a.

(** The body of [queryWords.forEach]. *)
Definition word_bonus (text title filePath : jstring) (score : Q)
  (word : jstring) : Q :=
  if (2 <? length word)%nat then
    bonus (includes filePath word) (5 # 100)
      (bonus (includes title word) (15 # 100)
         (bonus (includes text word) (1 # 10) score))
  else score.

Definition calculateTextScore (query : jstring) (p : payload) : Q :=
  let queryLower := toLowerCase query in
  let text := toLowerCase (text p) in
  let title :=
    match title p with
    | Some t => toLowerCase t
    | None => []
    end in
  let filePath := toLowerCase (file_path p) in
  let score := 5 # 10 in
  let score := bonus (includes text queryLower) (3 # 10) score in
  let score := bonus (includes title queryLower) (4 # 10) score in
  let score := bonus (includes filePath queryLower) (2 # 10) score in
  let queryWords := split_ws queryLower in
  let score := fold_left (word_bonus text title filePath) queryWords score in
  let score := bonus (startsWith text queryLower) (2 # 10) score in
  min score 1.

(** The score that [addFullTextResults] gives to a point: the value of
    [calculateTextScore], then the boost for exact matches. *)
Definition textScore (searchQuery : jstring) (p : payload) : Q :=
  let textScore := calculateTextScore searchQuery p in
  bonus (includes (toLowerCase (text p)) (toLowerCase searchQuery)) (2 # 10)
    textScore.

End Scoring.

(* ------------------------------------------------------------------ *)
(** ** The accumulator [allResults]: a [Map] in insertion order *)

Module ResultMap.

Definition t := list (jstring * hit).

Definition get (m : t) (key : jstring) : option hit :=
  match find (fun e => string_eqb (fst e) key) m with
  | Some e => Some (snd e)
  | None => None
  end.

Definition has (m : t) (key : jstring) : bool :=
  match get m key with Some _ => true | None => false end.

(** [m.set(key, v)]: a known key keeps its place, a new key goes last. *)
Fixpoint set (m : t) (key : jstring) (v : hit) : t :=
  match m with
  | [] => [(key, v)]
  | e :: m' =>
      if string_eqb (fst e) key then (key, v) :: m'
      else e :: set m' key v
  end.

(** [Array.from(m.values())]. *)
Definition values (m : t) : list hit := map snd m.


End ResultMap.

(** [`${point.payload.file_path}_${point.payload.chunk_index}`] *)
Definition result_key (p : payload) : jstring :=
  file_path p ++ str "_" ++ of_nat (chunk_index p).

(** The conditional [set] shared by the two legs of the search. *)
Definition keep_best (allResults : ResultMap.t) (candidate : hit)
  : ResultMap.t :=
  let key := result_key (hit_payload candidate) in
  if negb (ResultMap.has allResults key)
     || match ResultMap.get allResults key with
        | Some old => Scoring.ltb (score old) (score candidate)
        | None => false
        end
  then ResultMap.set allResults key candidate
  else allResults.

(** [xs.sort(cmp)]: the sort is stable; an element goes before the first
    one that [cmp] puts strictly after it. *)
Fixpoint sort_insert {A} (cmp : A -> A -> Q) (x : A) (sorted : list A)
  : list A :=
  match sorted with
  | [] => [x]
  | y :: r =>
      if Scoring.ltb 0 (cmp y x) then x :: y :: r
      else y :: sort_insert cmp x r
  end.

Definition js_sort {A} (cmp : A -> A -> Q) (xs : list A) : list A :=
  fold_left (fun sorted x => sort_insert cmp x sorted) xs [].

(* ------------------------------------------------------------------ *)
(** ** The external services and the computations that call them *)

Inductive ErrorCode := InvalidParams | InternalError | MethodNotFound.

Inductive error :=
| Error (message : jstring)
| McpError (code : ErrorCode) (message : jstring).

Definition error_message (e : error) : jstring :=
  match e with
  | Error m => m
  | McpError _ m => m
  end.

Definition outcome (A : Type) : Type := (error + A)%type.

(** The [points] field of a scroll answer may be missing. *)
Record scroll_result := { points : option (list point) }.

(** A request to a service together with its outcome.  The constant
    parts of a request are left out: the model and the URL of an embedding
    request, the collection, [with_payload: true], the threshold 0.3 of
    a similarity search, the three [should] clauses of a scroll, which all
    match the same text, and [wait: true] of an upsert. *)
Inductive event :=
| EvEmbeddings (prompt : jstring) (r : outcome vector)
| EvSearch (v : vector) (limit : nat) (r : outcome (list scored_point))
| EvScroll (match_text : jstring) (limit : nat) (r : outcome scroll_result)
| EvUpsert (pts : list point) (r : outcome unit)
| EvDelete (filePath : jstring) (r : outcome unit).

Definition history := list event.

(** The services, each answering from the history so far, and the clock. *)
Record services := {
  ollama_embeddings : history -> jstring -> outcome vector;
  qdrant_search : history -> vector -> nat -> outcome (list scored_point);
  qdrant_scroll : history -> jstring -> nat -> outcome scroll_result;
  qdrant_upsert : history -> list point -> outcome unit;
  qdrant_delete : history -> jstring -> outcome unit;
  getFullYear : nat
}.

(** An [async] computation. *)
Definition M (A : Type) : Type := history -> outcome A * history.

Definition ret {A} (a : A) : M A := fun h => (inr a, h).

Definition throw {A} (e : error) : M A := fun h => (inl e, h).

Definition bind {A B} (m : M A) (k : A -> M B) : M B :=
  fun h =>
    match m h with
    | (inr a, h') => k a h'
    | (inl e, h') => (inl e, h')
    end.

(** [try { m } catch (error) { handler error }] *)
Definition try_catch {A} (m : M A) (handler : error -> M A) : M A :=
  fun h =>
    match m h with
    | (inr a, h') => (inr a, h')
    | (inl e, h') => handler e h'
    end.

Notation "x <- m ;; k" := (bind m (fun x => k))
  (at level 61, m at next level, right associativity).

(** A request: the service answers from the history and the exchange is
    appended to it. *)
Definition request {A} (answer : history -> outcome A)
  (log : outcome A -> event) : M A :=
  fun h => let r := answer h in (r, h ++ [log r]).

(** [for (const x of xs) { acc = await body(acc, x) }] *)
Fixpoint for_of {A S} (xs : list A) (body : S -> A -> M S) (acc : S) : M S :=
  match xs with
  | [] => ret acc
  | x :: rest => acc' <- body acc x ;; for_of rest body acc'
  end.

(* ------------------------------------------------------------------ *)
(** ** Indexer and HybridRetriever *)

Module Engine.

Section WithServices.

Variable env : services.

(** The [catch] of [generateEmbedding] logs the error and throws it again. *)
Definition generateEmbedding (text : jstring) : M vector :=
  try_catch
    (request (fun h => ollama_embeddings env h text) (EvEmbeddings text))
    (fun error => throw error).

Definition make_point (d : document) (i : nat) (c : Chunker.chunk)
  (v : vector) : point :=
  {| id := generatePointId (doc_id d) i;
     vector_ := v;
     payload_ :=
       {| file_path := doc_path d;
          chunk_index := i;
          text := Chunker.text c;
          title := Some (Meta.extractTitle d);
          tags := Meta.extractTags d;
          frontmatter_ := doc_frontmatter d;
          last_modified := doc_lastModified d |} |}.

(** The loop [for (let i = 0; i < chunks.length; i++)]: [i] is the index
    of the head of [chunks]. *)
Fixpoint embed_chunks (d : document) (i : nat) (chunks : list Chunker.chunk)
  (pts : list point) : M (list point) :=
  match chunks with
  | [] => ret pts
  | chunk :: rest =>
      v <- generateEmbedding (Chunker.text chunk) ;;
      embed_chunks d (S i) rest (pts ++ [make_point d i chunk v])
  end.

Definition processDocument (d : document) : M unit :=
  try_catch
    (let chunks := Chunker.chunkDocument d in
     pts <- embed_chunks d 0 chunks [] ;;
     request (fun h => qdrant_upsert env h pts) (EvUpsert pts))
    (fun error => throw error).

Definition deleteDocument (filePath : jstring) : M unit :=
  try_catch
    (request (fun h => qdrant_delete env h filePath) (EvDelete filePath))
    (fun error => throw error).

(** The body of [searchResult.forEach]. *)
Definition add_semantic (searchQuery : jstring) (allResults : ResultMap.t)
  (p : scored_point) : ResultMap.t :=
  keep_best allResults
    {| score := sp_score p; searchQuery := searchQuery;
       searchType := semantic; hit_payload := sp_payload p |}.

(** One turn of the loop under [// 1. SEMANTIC SEARCH]. *)
Definition semantic_leg (limit : nat) (allResults : ResultMap.t)
  (searchQuery : jstring) : M ResultMap.t :=
  queryVector <- generateEmbedding searchQuery ;;
  searchResult <-
    request (fun h => qdrant_search env h queryVector (limit * 2))
            (EvSearch queryVector (limit * 2)) ;;
  ret (fold_left (add_semantic searchQuery) searchResult allResults).

(** The body of [scrollResult.points?.forEach]. *)
Definition add_full_text (searchQuery : jstring) (allResults : ResultMap.t)
  (p : point) : ResultMap.t :=
  keep_best allResults
    {| score := Scoring.textScore searchQuery (payload_ p);
       searchQuery := searchQuery;
       searchType := full_text; hit_payload := payload_ p |}.

(** One turn of the loop of [addFullTextResults]. *)
Definition full_text_leg (limit : nat) (allResults : ResultMap.t)
  (searchQuery : jstring) : M ResultMap.t :=
  scrollResult <-
    request (fun h => qdrant_scroll env h searchQuery (limit * 2))
            (EvScroll searchQuery (limit * 2)) ;;
  ret match points scrollResult with
      | Some pts => fold_left (add_full_text searchQuery) pts allResults
      | None => allResults
      end.

(** [addFullTextResults] writes into the [Map] of its caller and never
    throws: an error ends the loop, and the map keeps what the earlier
    turns have written.  The result is the map after the call. *)
Fixpoint addFullTextResults (queries : list jstring)
  (allResults : ResultMap.t) (limit : nat) (h : history)
  : ResultMap.t * history :=
  match queries with
  | [] => (allResults, h)
  | searchQuery :: rest =>
      match full_text_leg limit allResults searchQuery h with
      | (inr allResults', h') => addFullTextResults rest allResults' limit h'
      | (inl _, h') => (allResults, h')
      end
  end.

Definition by_score_desc (a b : hit) : Q := (score b - score a)%Q.

Definition search (query : jstring) (limit : nat) : M (list hit) :=
  try_catch
    (let queries := QueryExpander.expandQuery (getFullYear env) query in
     allResults <- for_of queries (semantic_leg limit) [] ;;
     allResults <-
       (fun h =>
          let (m, h') := addFullTextResults queries allResults limit h in
          (inr m, h')) ;;
     ret (firstn limit (js_sort by_score_desc (ResultMap.values allResults))))
    (fun error => throw error).

End WithServices.

End Engine.

(* ------------------------------------------------------------------ *)
(** ** The [search_notes] tool: [handleSearchNotes] *)

Module Tool.

Record search_args := { arg_query : option jstring; arg_limit : option nat }.

Record result_row := {
  row_file_path : jstring;
  row_title : option jstring;
  row_score : Q;
  row_search_type : search_type;
  row_search_query_used : jstring;
  row_text_preview : jstring;
  row_tags : list jstring;
  row_chunk_index : nat
}.

(** The object that is serialised into the text of the tool's answer. *)
Record search_response := {
  res_query : jstring;
  res_results : list result_row;
  res_total_results : nat
}.

Definition row_of (h : hit) : result_row :=
  {| row_file_path := file_path (hit_payload h);
     row_title := title (hit_payload h);
     row_score := score h;
     row_search_type := searchType h;
     row_search_query_used := searchQuery h;
     row_text_preview := firstn 200 (text (hit_payload h)) ++ str "...";
     row_tags := tags (hit_payload h);
     row_chunk_index := chunk_index (hit_payload h) |}.

Definition handleSearchNotes (env : services) (args : search_args)
  : M search_response :=
  let limit := match arg_limit args with Some l => l | None => 10 end in
  match arg_query args with
  | None => throw (McpError InvalidParams (str "Query parameter is required"))
  | Some query =>
      if negb (truthy query) then
        throw (McpError InvalidParams (str "Query parameter is required"))
      else
        try_catch
          (results <- Engine.search env query limit ;;
           ret {| res_query := query;
                  res_results := map row_of results;
                  res_total_results := length results |})
          (fun error =>
             throw (McpError InternalError
                      (str "Search failed: " ++ error_message error)))
  end.

End Tool.

(* ------------------------------------------------------------------ *)
(** ** The collection of the store: [initialize], [ensureCollection] *)

Module Setup.

Definition collectionName : jstring := str "obsidian_notes".

Record vectors_config := { size : nat; distance : jstring }.

(** The requests about collections, with their outcomes; what a lookup
    returns about the collection is not read. *)
Inductive event :=
| EvGetCollection (name : jstring) (r : outcome unit)
| EvCreateCollection (name : jstring) (config : vectors_config)
    (r : outcome unit).

Record collections := {
  getCollection : list event -> jstring -> outcome unit;
  createCollection : list event -> jstring -> vectors_config -> outcome unit
}.

(** [try { await getCollection } catch (error) { await createCollection }] *)
Definition ensureCollection (api : collections) (h : list event)
  : outcome unit * list event :=
  let looked := getCollection api h collectionName in
  let h1 := h ++ [EvGetCollection collectionName looked] in
  match looked with
  | inr _ => (inr tt, h1)
  | inl _ =>
      let config := {| size := 768; distance := str "Cosine" |} in
      let created := createCollection api h1 collectionName config in
      (match created with inr _ => inr tt | inl e => inl e end,
       h1 ++ [EvCreateCollection collectionName config created])
  end.

(** The [catch] of [initialize] logs the error and throws it again. *)
Definition initialize (api : collections) (h : list event)
  : outcome unit * list event :=
  match ensureCollection api h with
  | (inr u, h') => (inr u, h')
  | (inl error, h') => (inl error, h')
  end.

End Setup.

(* ------------------------------------------------------------------ *)
(** ** The file watcher: [handleFileChange], [handleFileDelete],
       [processExistingFiles] *)

Module Watcher.

(** The notebook on disk, as the watcher reads it.  [read_note h p] is
    [fs.readFile] of the file [p] of the notebook followed by [matter]: the
    content and the data of the note, or the error of either.
    [list_notes h] is [getMarkdownFiles] made relative to the notebook.
    [now h] is the clock.  They may change with time, for which the
    history stands. *)
Record notebook := {
  read_note : history -> jstring -> outcome (jstring * frontmatter);
  list_notes : history -> outcome (list jstring);
  now : history -> N
}.

(** An [await] of something that is no request to a service. *)
Definition read {A} (f : history -> outcome A) : M A := fun h => (f h, h).

Section WithNotebook.

Variable nb : notebook.
Variable env : services.

Definition document_of (filePath : jstring)
  (parsed : jstring * frontmatter) (lastModified : N) : document :=
  {| doc_id := filePath;
     doc_path := filePath;
     doc_content := fst parsed;
     doc_frontmatter := Some (snd parsed);
     doc_lastModified := lastModified |}.

(** The [catch] logs the error and ends the handler normally. *)
Definition handleFileChange (filePath : jstring) : M unit :=
  try_catch
    (parsed <- read (fun h => read_note nb h filePath) ;;
     lastModified <- read (fun h => inr (now nb h)) ;;
     Engine.processDocument env (document_of filePath parsed lastModified))
    (fun error => ret tt).

Definition handleFileDelete (filePath : jstring) : M unit :=
  try_catch (Engine.deleteDocument env filePath) (fun error => ret tt).

Definition processExistingFiles : M unit :=
  try_catch
    (files <- read (list_notes nb) ;;
     for_of files (fun _ relativePath => handleFileChange relativePath) tt)
    (fun error => ret tt).

End WithNotebook.

End Watcher.

(* ================================================================== *)
(** * The vocabulary of the properties *)

(** What the loop keeps true of its buffer: it is short, or it is one
    paragraph behind an overlap. *)
Definition seeded (ps : list jstring) (s : jstring) : Prop :=
  length s <= Chunker.maxChunkSize + 2
  \/ exists ov p, In p ps /\ length ov <= Chunker.overlap /\ s = ov ++ p.

(** The same of a chunk, which is a trimmed buffer. *)
Definition chunk_bounded (ps : list jstring) (c : Chunker.chunk) : Prop :=
  length (Chunker.text c) <= Chunker.maxChunkSize + 2
  \/ exists ov p,
       In p ps /\ length ov <= Chunker.overlap
       /\ Chunker.text c = trim (ov ++ p).

(** The invariant of the loop of [chunkDocument] over the paragraphs [ps],
    of which [seen] have been read: as long as no chunk is flushed, the
    buffer holds every character of the paragraphs read. *)
Record loop_inv (ps seen : list jstring) (st : Chunker.state) : Prop := {
  inv_buffer : seeded ps (Chunker.currentChunk st);
  inv_chunks : forall c, In c (Chunker.chunks st) -> chunk_bounded ps c;
  inv_chars :
    Chunker.chunks st = [] ->
    forall p, In p seen -> forall a, In a p ->
    In a (Chunker.currentChunk st)
}.

(** The bound of the specification's section 8, as it is written there. *)
Definition specified_chunk_bound (d : document) (c : Chunker.chunk) : Prop :=
  length (Chunker.text c) <= 1000
  \/ exists p,
       In p (Chunker.paragraphs (doc_content d))
       /\ 1000 < length p /\ Chunker.text c = p.


(** The separator between the path and the index in a key. *)
Definition underscore : ascii := "_"%char.



(** Computations only add to the history. *)
Definition grows {A} (m : M A) : Prop :=
  forall h, exists evs, snd (m h) = h ++ evs.

(** A computation whose first request is the embedding of [q]. *)
Definition embeds_first {A} (q : jstring) (m : M A) : Prop :=
  forall h, exists r rest, snd (m h) = h ++ EvEmbeddings q r :: rest.

(** An embedding request that was answered with a vector. *)
Definition embedded (ev : event) : Prop :=
  exists prompt v, ev = EvEmbeddings prompt (inr v).

(** The points of a document: one for every chunk, in order, under the
    chunk's index. *)
Definition points_of (d : document) (first : nat)
  (chunks : list Chunker.chunk) (pts : list point) : Prop :=
  Forall2
    (fun ic pt => exists v, pt = Engine.make_point d (fst ic) (snd ic) v)
    (combine (seq first (length chunks)) chunks) pts.

(* ------------------------------------------------------------------ *)
(** ** Notes, services and hits for the examples *)

(** Two paragraphs of 500 characters with a blank line between them. *)
Definition two_halves : document :=
  {| doc_id := str "notes/halves.md";
     doc_path := str "notes/halves.md";
     doc_content :=
       repeat "a"%char 500 ++ str (String "010" (String "010" ""))
       ++ repeat "b"%char 500;
     doc_frontmatter := None;
     doc_lastModified := 0%N |}.

(** A document whose second paragraph does not fit behind the first: the
    second chunk is an overlap followed by that paragraph. *)
Definition seam_example : document :=
  {| doc_id := str "notes/seam.md";
     doc_path := str "notes/seam.md";
     doc_content :=
       repeat "a"%char 120 ++ str (String "010" (String "010" ""))
       ++ repeat "b"%char 950;
     doc_frontmatter := None;
     doc_lastModified := 0%N |}.

Definition seam_chunk : Chunker.chunk :=
  {| Chunker.text := repeat "a"%char 100 ++ repeat "b"%char 950;
     Chunker.start := 900 |}.

(** A note whose text, title and path all contain the query. *)
Definition plan_payload : payload :=
  {| file_path := str "plan.md";
     chunk_index := 0;
     text := str "plan";
     title := Some (str "plan");
     tags := [];
     frontmatter_ := None;
     last_modified := 0%N |}.

(** Services in which the store holds that one note: the similarity search
    finds nothing and the scroll returns the note. *)
Definition plan_services : services :=
  {| ollama_embeddings := fun _ _ => inr [];
     qdrant_search := fun _ _ _ => inr [];
     qdrant_scroll :=
       fun _ _ _ =>
         inr {| points :=
                  Some [ {| id := generatePointId (str "plan.md") 0;
                            vector_ := [];
                            payload_ := plan_payload |} ] |};
     qdrant_upsert := fun _ _ => inr tt;
     qdrant_delete := fun _ _ => inr tt;
     getFullYear := 2025 |}.

Definition standup_payload : payload :=
  {| file_path := str "daily/2025-07-22.md";
     chunk_index := 0;
     text := str "standup meeting notes";
     title := Some (str "2025-07-22");
     tags := [str "daily"];
     frontmatter_ := None;
     last_modified := 0%N |}.

Definition launch_payload : payload :=
  {| file_path := str "projects/launch.md";
     chunk_index := 1;
     text := str "launch checklist";
     title := Some (str "Launch");
     tags := [];
     frontmatter_ := None;
     last_modified := 0%N |}.

(** Every embedding succeeds, the similarity search returns two points,
    and the scroll returns the first of them. *)
Definition sample_services : services :=
  {| ollama_embeddings := fun _ _ => inr [1%Q];
     qdrant_search :=
       fun _ _ _ =>
         inr [ {| sp_score := (6 # 10)%Q; sp_payload := standup_payload |};
               {| sp_score := (9 # 10)%Q; sp_payload := launch_payload |} ];
     qdrant_scroll :=
       fun _ _ _ =>
         inr {| points :=
                  Some [ {| id := generatePointId (str "daily/2025-07-22.md") 0;
                            vector_ := [];
                            payload_ := standup_payload |} ] |};
     qdrant_upsert := fun _ _ => inr tt;
     qdrant_delete := fun _ _ => inr tt;
     getFullYear := 2025 |}.

Definition hit_06 : hit :=
  {| score := (6 # 10)%Q; searchQuery := str "meeting";
     searchType := semantic; hit_payload := standup_payload |}.

Definition hit_08 : hit :=
  {| score := (8 # 10)%Q; searchQuery := str "meeting notes";
     searchType := full_text; hit_payload := standup_payload |}.


(** Services whose embedding succeeds once and then fails. *)
Definition flaky_services : services :=
  {| ollama_embeddings :=
       fun h _ =>
         match h with
         | [] => inr [1%Q]
         | _ :: _ => inl (Error (str "Ollama API error: 500"))
         end;
     qdrant_search := qdrant_search sample_services;
     qdrant_scroll := qdrant_scroll sample_services;
     qdrant_upsert := qdrant_upsert sample_services;
     qdrant_delete := qdrant_delete sample_services;
     getFullYear := 2025 |}.

(* ------------------------------------------------------------------ *)
(** ** More vocabulary *)

(** [p] occurs in [s] in one piece. *)
Definition infix (p s : jstring) : Prop := exists a b, s = a ++ p ++ b.

(** The weight of paragraphs: their characters and a separator each. *)
Definition weight (ps : list jstring) : nat :=
  fold_right (fun p n => length p + 2 + n) 0 ps.

(** The string that [generatePointId] hashes. *)
Definition point_id_input (filePath : jstring) (chunkIndex : nat) : jstring :=
  filePath ++ str "_chunk_" ++ of_nat chunkIndex.

(** The requests of the semantic legs, and those of the lexical legs. *)
Definition semantic_request (ev : event) : Prop :=
  match ev with
  | EvEmbeddings _ _ | EvSearch _ _ _ => True
  | _ => False
  end.

Definition scroll_request (ev : event) : Prop :=
  match ev with
  | EvScroll _ _ _ => True
  | _ => False
  end.

(** A request that changes the store. *)
Definition write_request (ev : event) : Prop :=
  match ev with
  | EvUpsert _ _ | EvDelete _ _ => True
  | _ => False
  end.

(** The tags that the front matter declares. *)
Definition declared_tags (d : document) : list jstring :=
  match doc_frontmatter d with
  | Some fm =>
      match fm_tags_field fm with
      | Some (TagArray ts) => ts
      | Some (TagOne t) => if truthy t then [t] else []
      | None => []
      end
  | None => []
  end.

(** The front matter gives no title: there is none, or it is empty. *)
Definition untitled (d : document) : Prop :=
  match doc_frontmatter d with
  | Some fm =>
      match fm_title fm with
      | Some t => t = []
      | None => True
      end
  | None => True
  end.

(** [m'] holds every key of [m], with a score that is not lower. *)
Definition dominates (m' m : ResultMap.t) : Prop :=
  forall key old,
    ResultMap.get m key = Some old ->
    exists new, ResultMap.get m' key = Some new /\ (score old <= score new)%Q.

(** The hit was filed for one of the queries [qs], and a lexical hit has
    the text score of its own payload for its own query. *)
Definition accounted (qs : list jstring) (x : hit) : Prop :=
  In (searchQuery x) qs
  /\ (searchType x = full_text ->
      score x = Scoring.textScore (searchQuery x) (hit_payload x)).

(** The successful embedding requests of chunks with their vectors. *)
Definition embedding_events (chunks : list Chunker.chunk) (vs : list vector)
  : list event :=
  map (fun cv => EvEmbeddings (Chunker.text (fst cv)) (inr (snd cv)))
      (combine chunks vs).

(** The loop only ever files trimmed buffers. *)
Definition all_trimmed (cs : list Chunker.chunk) : Prop :=
  forall c, In c cs -> exists s, Chunker.text c = trim s.

(** The starts follow the positions. *)
Definition starts_in_step (cs : list Chunker.chunk) : Prop :=
  forall i c, nth_error cs i = Some c ->
              Chunker.start c = i * (Chunker.maxChunkSize - Chunker.overlap).

(** Every paragraph read is whole in the buffer or, trimmed, in a chunk. *)
Definition kept (seen : list jstring) (st : Chunker.state) : Prop :=
  forall p, In p seen ->
    infix p (Chunker.currentChunk st)
    \/ exists c, In c (Chunker.chunks st) /\ infix (trim p) (Chunker.text c).

(** Services whose embedding service is down. *)
Definition offline_services : services :=
  {| ollama_embeddings := fun _ _ => inl (Error (str "connect ECONNREFUSED"));
     qdrant_search := qdrant_search sample_services;
     qdrant_scroll := qdrant_scroll sample_services;
     qdrant_upsert := qdrant_upsert sample_services;
     qdrant_delete := qdrant_delete sample_services;
     getFullYear := 2025 |}.

(** Services whose similarity search fails. *)
Definition no_store_services : services :=
  {| ollama_embeddings := ollama_embeddings sample_services;
     qdrant_search := fun _ _ _ => inl (Error (str "Service Unavailable"));
     qdrant_scroll := qdrant_scroll sample_services;
     qdrant_upsert := qdrant_upsert sample_services;
     qdrant_delete := qdrant_delete sample_services;
     getFullYear := 2025 |}.

(** A notebook with two notes, the first of which cannot be read. *)
Definition sample_notebook : Watcher.notebook :=
  {| Watcher.read_note :=
       fun _ p =>
         if string_eqb p (str "broken.md")
         then inl (Error (str "ENOENT: no such file or directory"))
         else inr (str "# Plan" ++ ["010"%char] ++ str "water the #garden",
                   {| fm_title := None; fm_tags_field := None;
                      fm_rest := [] |});
     Watcher.list_notes := fun _ => inr [str "broken.md"; str "plan.md"];
     Watcher.now := fun _ => 1753142400%N |}.

(** A store in which the collection is missing and can be created. *)
Definition fresh_store : Setup.collections :=
  {| Setup.getCollection := fun _ _ => inl (Error (str "Not Found"));
     Setup.createCollection := fun _ _ _ => inr tt |}.


(* ================================================================== *)
(** * Properties *)

(* ------------------------------------------------------------------ *)
(** ** The embedding on small inputs *)

Section Checks.

Let LF : jstring := ["010"%char].

(** A separator runs to the last line feed of the whitespace: the spaces
    after it open the next paragraph; a final separator leaves an empty
    last paragraph. *)
Example paragraphs_blank_lines :
  Chunker.paragraphs
    (str "ab" ++ LF ++ str " " ++ LF ++ LF ++ str "  cd" ++ LF ++ str "e"
     ++ LF ++ LF)
  = [str "ab"; str "  cd" ++ LF ++ str "e"; []].
Proof. reflexivity. Qed.

Example chunk_of_blank_text :
  Chunker.chunkDocument
    {| doc_id := str "a.md"; doc_path := str "a.md";
       doc_content := str "  " ++ LF; doc_frontmatter := None;
       doc_lastModified := 0%N |}
  = [ {| Chunker.text := []; Chunker.start := 0 |} ].
Proof. reflexivity. Qed.

Example split_ws_edges :
  split_ws (str " a  b ") = [[]; str "a"; str "b"; []].
Proof. reflexivity. Qed.

Example lower_case_latin1 :
  toLowerCase (str "July 4TH") = str "july 4th".
Proof. reflexivity. Qed.

Example title_from_heading :
  Meta.extractTitle
    {| doc_id := str "a.md"; doc_path := str "notes/a.md";
       doc_content := str "intro" ++ LF ++ str "#  Launch  " ++ LF ++ str "# x";
       doc_frontmatter := None; doc_lastModified := 0%N |}
  = str "Launch".
Proof. reflexivity. Qed.

Example title_from_path :
  Meta.extractTitle
    {| doc_id := str "a.md"; doc_path := str "notes/a.md";
       doc_content := str "## Launch"; doc_frontmatter := None;
       doc_lastModified := 0%N |}
  = str "a".
Proof. reflexivity. Qed.

Example tags_from_content :
  Meta.extractTags
    {| doc_id := str "a.md"; doc_path := str "a.md";
       doc_content := str "see #a-b_c d#e # #f! #a-b_c";
       doc_frontmatter :=
         Some {| fm_title := None;
                 fm_tags_field := Some (TagOne (str "e"));
                 fm_rest := [] |};
       doc_lastModified := 0%N |}
  = [str "e"; str "a-b_c"; str "f"].
Proof. reflexivity. Qed.

(** The date must stand alone: no match in "july 123", "mayjune 5",
    "may 5x" or "june 2nds". *)
Example expand_without_date :
  QueryExpander.expandQuery 2025 (str "july 123 mayjune 5 may 5x june 2nds")
  = [ str "july 123 mayjune 5 may 5x june 2nds"; str "july"; str "123";
      str "mayjune"; str "may"; str "june"; str "2nds" ].
Proof. vm_compute. reflexivity. Qed.

Example expand_daily_december :
  QueryExpander.expandQuery 2025
    (str "what about the daily notes from December  25th, please")
  = [ str "what about the daily notes from December  25th, please";
      str "12-25"; str "2025-12-25"; str "12/25"; str "1225";
      str "20251225"; str "december 25"; str "december-25"; str "25";
      str "12"; str "what"; str "daily"; str "december"; str "25th,";
      str "please"; str "daily note"; str "## Daily"; str "Daily";
      str "today" ].
Proof. vm_compute. reflexivity. Qed.

Example score_of_standup :
  (Scoring.calculateTextScore (str "meeting") standup_payload == 9 # 10)%Q
  /\ (Scoring.textScore (str "meeting") standup_payload == 11 # 10)%Q.
Proof. split; vm_compute; reflexivity. Qed.

Example search_for_launch :
  map (fun x => (file_path (hit_payload x), searchType x))
      (match fst (Engine.search sample_services (str "launch") 5 []) with
       | inr hits => hits
       | inl _ => []
       end)
  = [ (str "projects/launch.md", semantic);
      (str "daily/2025-07-22.md", semantic) ].
Proof. vm_compute. reflexivity. Qed.

End Checks.

(* ------------------------------------------------------------------ *)
(** ** Strings *)

Section StringFacts.

Lemma length_dropWhile_le (f : ascii -> bool) (s : jstring) :
  length (dropWhile f s) <= length s.
Proof.
  induction s as [|c s IH]; simpl; [lia|].
  destruct (f c); simpl; lia.
Qed.

Lemma length_trim_le (s : jstring) : length (trim s) <= length s.
Proof.
  unfold trim. rewrite length_rev.
  pose proof (length_dropWhile_le is_ws (rev (dropWhile is_ws s))) as H1.
  pose proof (length_dropWhile_le is_ws s) as H2.
  rewrite length_rev in H1. lia.
Qed.

Lemma dropWhile_all (f : ascii -> bool) (s : jstring) :
  forallb f s = true -> dropWhile f s = [].
Proof.
  induction s as [|c s IH]; simpl; [reflexivity|].
  destruct (f c); simpl; [exact IH | discriminate].
Qed.

Lemma dropWhile_nil_all (f : ascii -> bool) (s : jstring) :
  dropWhile f s = [] -> forallb f s = true.
Proof.
  induction s as [|c s IH]; simpl; [reflexivity|].
  destruct (f c); simpl; [exact IH | discriminate].
Qed.

Lemma trim_all_ws (s : jstring) : forallb is_ws s = true -> trim s = [].
Proof.
  intros H. unfold trim. rewrite (dropWhile_all _ _ H). reflexivity.
Qed.

Lemma dropWhile_head (f : ascii -> bool) (s : jstring) c r :
  dropWhile f s = c :: r -> f c = false.
Proof.
  induction s as [|d s IH]; simpl; [discriminate|].
  destruct (f d) eqn:Ed; [exact IH|].
  intros H. injection H as -> _. exact Ed.
Qed.

Lemma trim_nil_all_ws (s : jstring) : trim s = [] -> forallb is_ws s = true.
Proof.
  unfold trim. intros H.
  apply (f_equal (@rev ascii)) in H. rewrite rev_involutive in H. simpl in H.
  apply dropWhile_nil_all in H.
  apply dropWhile_nil_all.
  destruct (dropWhile is_ws s) as [|c r] eqn:Et; [reflexivity|].
  apply dropWhile_head in Et.
  rewrite forallb_forall in H.
  rewrite (H c) in Et; [discriminate|].
  apply in_rev. rewrite rev_involutive. left. reflexivity.
Qed.

Lemma length_slice_last (n : nat) (s : jstring) :
  length (slice_last n s) <= n.
Proof.
  unfold slice_last. rewrite length_skipn. lia.
Qed.

Lemma truthy_length (s : jstring) : truthy s = (0 <? length s).
Proof. destruct s; reflexivity. Qed.

End StringFacts.

(* ------------------------------------------------------------------ *)
(** ** Chunker *)

Section ChunkerFacts.

Import Chunker.

Lemma seeded_trim ps s c :
  seeded ps s -> text c = trim s -> chunk_bounded ps c.
Proof.
  intros [H | (ov & p & Hp & Hov & ->)] Hc.
  - left. rewrite Hc. pose proof (length_trim_le s). lia.
  - right. exists ov, p. auto.
Qed.

Lemma flush_bounded ps seen st c :
  loop_inv ps seen st -> In c (flush st) -> chunk_bounded ps c.
Proof.
  intros I Hc. unfold flush in Hc. apply in_app_or in Hc.
  destruct Hc as [Hc | [<- | []]].
  - exact (inv_chunks _ _ _ I c Hc).
  - eapply seeded_trim; [exact (inv_buffer _ _ _ I) | reflexivity].
Qed.

Lemma flush_not_nil st : flush st <> [].
Proof. unfold flush. destruct (chunks st); discriminate. Qed.

Lemma step_inv ps seen st p :
  In p ps -> loop_inv ps seen st -> loop_inv ps (seen ++ [p]) (step st p).
Proof.
  intros Hp I. unfold step.
  destruct (Nat.ltb_spec maxChunkSize (length (currentChunk st) + length p))
    as [Hbig | Hsmall];
  destruct (Nat.ltb_spec 0 (length (currentChunk st))) as [Hne | He];
  simpl.
  - constructor; simpl.
    + right. exists (slice_last overlap (currentChunk st)), p.
      split; [exact Hp|]. split; [apply length_slice_last | reflexivity].
    + intros c Hc. exact (flush_bounded _ _ _ _ I Hc).
    + intros Hnil. destruct (flush_not_nil _ Hnil).
  - constructor; simpl.
    + right. exists [], p. split; [exact Hp|]. split; [simpl; lia|].
      destruct (currentChunk st); [reflexivity | simpl in He; lia].
    + exact (inv_chunks _ _ _ I).
    + intros Hnil q Hq a Ha. apply in_app_or in Hq.
      apply in_or_app. destruct Hq as [Hq | [<- | []]].
      * left. exact (inv_chars _ _ _ I Hnil q Hq a Ha).
      * right. apply in_or_app. right. exact Ha.
  - constructor; simpl.
    + left. rewrite !length_app.
      unfold maxChunkSize in *.
      destruct (truthy (currentChunk st)); cbn [length]; lia.
    + exact (inv_chunks _ _ _ I).
    + intros Hnil q Hq a Ha. apply in_app_or in Hq.
      apply in_or_app. destruct Hq as [Hq | [<- | []]].
      * left. exact (inv_chars _ _ _ I Hnil q Hq a Ha).
      * right. apply in_or_app. right. exact Ha.
  - constructor; simpl.
    + left. rewrite !length_app.
      unfold maxChunkSize in *.
      destruct (truthy (currentChunk st)); cbn [length]; lia.
    + exact (inv_chunks _ _ _ I).
    + intros Hnil q Hq a Ha. apply in_app_or in Hq.
      apply in_or_app. destruct Hq as [Hq | [<- | []]].
      * left. exact (inv_chars _ _ _ I Hnil q Hq a Ha).
      * right. apply in_or_app. right. exact Ha.
Qed.

Lemma fold_step_inv ps l :
  forall seen st,
    incl l ps -> loop_inv ps seen st ->
    loop_inv ps (seen ++ l) (fold_left step l st).
Proof.
  induction l as [|p l IH]; intros seen st Hincl I; simpl.
  - rewrite app_nil_r. exact I.
  - replace (seen ++ p :: l) with ((seen ++ [p]) ++ l)
      by (rewrite <- app_assoc; reflexivity).
    apply IH.
    + intros q Hq. apply Hincl. right. exact Hq.
    + apply step_inv; [apply Hincl; left; reflexivity | exact I].
Qed.

Lemma run_inv ps : loop_inv ps ps (run ps).
Proof.
  unfold run. apply (fold_step_inv ps ps []).
  - apply incl_refl.
  - constructor; simpl.
    + left. cbn [length]. lia.
    + intros c [].
    + intros _ p [].
Qed.

Lemma is_nl_ws c : is_nl c = true -> is_ws c = true.
Proof.
  unfold is_nl, is_ws, between. intros H. apply N.eqb_eq in H.
  rewrite H. reflexivity.
Qed.

Lemma sep_len_ws r :
  forall n, sep_len r = Some n -> forallb is_ws (firstn n r) = true.
Proof.
  induction r as [|c r IH]; simpl; intros n H; [discriminate|].
  destruct (is_ws c) eqn:Ec; [|discriminate].
  destruct (sep_len r) as [m|] eqn:Er.
  - injection H as <-. simpl. rewrite Ec. simpl. apply IH. reflexivity.
  - destruct (is_nl c); [|discriminate].
    injection H as <-. simpl. rewrite Ec. reflexivity.
Qed.

(** Every code unit of a text is whitespace of a separator or belongs to
    one of its paragraphs. *)
Lemma split_go_covers s :
  forall skip cur a,
    forallb is_ws (firstn skip s) = true ->
    In a s \/ In a cur ->
    is_ws a = true \/ exists p, In p (split_go s skip cur) /\ In a p.
Proof.
  induction s as [|c r IH]; intros skip cur a Hskip Ha.
  - right. exists (rev cur). split; [left; reflexivity|].
    destruct Ha as [[] | Ha]. apply in_rev in Ha. exact Ha.
  - destruct skip as [|k].
    + simpl. clear Hskip.
      assert (Hkeep :
        In a (c :: r) \/ In a cur ->
        is_ws a = true \/ exists p, In p (split_go r 0 (c :: cur)) /\ In a p).
      { intros H. apply IH; [reflexivity|].
        destruct H as [[-> | H] | H]; [right; left; reflexivity | left; exact H
                                       | right; right; exact H]. }
      destruct (is_nl c) eqn:Enl; [|exact (Hkeep Ha)].
      destruct (sep_len r) as [n|] eqn:En; [|exact (Hkeep Ha)].
      destruct Ha as [[-> | Ha] | Ha].
      * left. apply is_nl_ws. exact Enl.
      * destruct (IH n [] a (sep_len_ws r n En) (or_introl Ha))
          as [Hw | (p & Hp & Hap)]; [left; exact Hw|].
        right. exists p. split; [right; exact Hp | exact Hap].
      * right. exists (rev cur). split; [left; reflexivity|].
        apply in_rev in Ha. exact Ha.
    + simpl in Hskip. apply andb_prop in Hskip. destruct Hskip as [Hc Hk].
      simpl. destruct Ha as [[-> | Ha] | Ha].
      * left. exact Hc.
      * apply IH; [exact Hk | left; exact Ha].
      * apply IH; [exact Hk | right; exact Ha].
Qed.

Lemma paragraphs_cover content a :
  In a content ->
  is_ws a = true \/ exists p, In p (paragraphs content) /\ In a p.
Proof.
  intros Ha. apply (split_go_covers content 0 [] a); [reflexivity|].
  left. exact Ha.
Qed.

(** When the loop has produced no chunk and leaves a blank buffer, the
    whole text is blank: the fallback chunk is empty. *)
Lemma fallback_empty content :
  let st := run (paragraphs content) in
  chunks st = [] -> trim (currentChunk st) = [] -> trim content = [].
Proof.
  intros st Hnil Hblank. apply trim_all_ws. apply forallb_forall.
  intros a Ha.
  destruct (paragraphs_cover content a Ha) as [Hw | (p & Hp & Hap)];
    [exact Hw|].
  pose proof (run_inv (paragraphs content)) as I.
  pose proof (inv_chars _ _ _ I Hnil p Hp a Hap) as Hin.
  apply trim_nil_all_ws in Hblank. rewrite forallb_forall in Hblank.
  apply Hblank. exact Hin.
Qed.

Lemma chunkDocument_bounded d c :
  In c (chunkDocument d) -> chunk_bounded (paragraphs (doc_content d)) c.
Proof.
  unfold chunkDocument.
  pose proof (run_inv (paragraphs (doc_content d))) as I.
  set (st := run (paragraphs (doc_content d))) in *.
  destruct (truthy (trim (currentChunk st))) eqn:Et.
  - destruct (Nat.ltb_spec 0 (length (flush st))) as [_ | H0].
    + intros Hc. exact (flush_bounded _ _ _ _ I Hc).
    + destruct (flush st) eqn:Ef; [destruct (flush_not_nil _ Ef)|].
      simpl in H0. lia.
  - destruct (Nat.ltb_spec 0 (length (chunks st))) as [_ | H0].
    + exact (inv_chunks _ _ _ I c).
    + assert (Hn : chunks st = [])
        by (destruct (chunks st); [reflexivity | simpl in H0; lia]).
      assert (Hb : trim (currentChunk st) = [])
        by (destruct (trim (currentChunk st)); [reflexivity | discriminate]).
      intros [<- | []]. left. cbn [text].
      rewrite (fallback_empty (doc_content d) Hn Hb). cbn [length]. lia.
Qed.

End ChunkerFacts.

(** C3, counterexample: the two paragraphs of [two_halves] pass the size
    test together (500 + 500 is not above 1000) and are joined by a blank
    line into a single chunk of 1002 characters, although no paragraph is
    longer than 1000. *)
Lemma chunk_bound_counterexample :
  Chunker.chunkDocument two_halves
  = [ {| Chunker.text := doc_content two_halves; Chunker.start := 0 |} ]
  /\ length (doc_content two_halves) = 1002
  /\ exists c,
       In c (Chunker.chunkDocument two_halves)
       /\ ~ specified_chunk_bound two_halves c.
Proof.
  assert (E : Chunker.chunkDocument two_halves
              = [ {| Chunker.text := doc_content two_halves;
                     Chunker.start := 0 |} ]) by (vm_compute; reflexivity).
  split; [exact E|]. split; [vm_compute; reflexivity|].
  exists {| Chunker.text := doc_content two_halves; Chunker.start := 0 |}.
  split; [rewrite E; left; reflexivity|].
  intros [H | (p & Hp & Hlen & _)].
  - apply Nat.leb_le in H. vm_compute in H. discriminate.
  - apply Nat.ltb_lt in Hlen.
    assert (Ep : Chunker.paragraphs (doc_content two_halves)
                 = [repeat "a"%char 500; repeat "b"%char 500])
      by (vm_compute; reflexivity).
    rewrite Ep in Hp. destruct Hp as [<- | [<- | []]];
      vm_compute in Hlen; discriminate.
Qed.

(** C3, as amended: every chunk has at most 1002 characters, the size
    limit of 1000 plus the two characters of a paragraph separator, unless
    it is the trimmed buffer made of an overlap of at most 100 characters
    followed by one whole paragraph, unsplit; so a chunk is never longer
    than [max 1002 (100 + L)] where [L] bounds the paragraphs. *)
Theorem chunk_length_bound (d : document) (c : Chunker.chunk) :
  In c (Chunker.chunkDocument d) ->
  (length (Chunker.text c) <= Chunker.maxChunkSize + 2
   \/ exists ov p,
        In p (Chunker.paragraphs (doc_content d))
        /\ length ov <= Chunker.overlap
        /\ Chunker.text c = trim (ov ++ p))
  /\ forall L,
       (forall p, In p (Chunker.paragraphs (doc_content d)) -> length p <= L) ->
       length (Chunker.text c)
       <= Nat.max (Chunker.maxChunkSize + 2) (Chunker.overlap + L).
Proof.
  intros Hc. pose proof (chunkDocument_bounded d c Hc) as Hb.
  split; [exact Hb|].
  intros L HL. destruct Hb as [Hb | (ov & p & Hp & Hov & Ht)]; [lia|].
  rewrite Ht. pose proof (length_trim_le (ov ++ p)) as Hl.
  rewrite length_app in Hl. specialize (HL p Hp). lia.
Qed.

Lemma chunk_length_bound_witness :
  In seam_chunk (Chunker.chunkDocument seam_example)
  /\ length (Chunker.text seam_chunk) = 1050
  /\ (forall p, In p (Chunker.paragraphs (doc_content seam_example)) ->
                length p <= 950)
  /\ (length (Chunker.text seam_chunk) <= Chunker.maxChunkSize + 2
      \/ exists ov p,
           In p (Chunker.paragraphs (doc_content seam_example))
           /\ length ov <= Chunker.overlap
           /\ Chunker.text seam_chunk = trim (ov ++ p))
  /\ length (Chunker.text seam_chunk)
     <= Nat.max (Chunker.maxChunkSize + 2) (Chunker.overlap + 950).
Proof.
  assert (Hin : In seam_chunk (Chunker.chunkDocument seam_example))
    by (vm_compute; right; left; reflexivity).
  assert (Hps : forall p,
             In p (Chunker.paragraphs (doc_content seam_example)) ->
             length p <= 950).
  { assert (E : Chunker.paragraphs (doc_content seam_example)
                = [repeat "a"%char 120; repeat "b"%char 950])
      by (vm_compute; reflexivity).
    rewrite E. intros p [<- | [<- | []]]; rewrite repeat_length; lia. }
  destruct (chunk_length_bound seam_example seam_chunk Hin) as [Hshape Hmax].
  split; [exact Hin|]. split; [vm_compute; reflexivity|].
  split; [exact Hps|]. split; [exact Hshape|].
  exact (Hmax 950 Hps).
Defined.

(* ------------------------------------------------------------------ *)
(** ** PointIdentity *)

Section DigestFacts.

Import MD5.

(** The test suite of RFC 1321, appendix A.5. *)
Example md5_empty :
  md5_hex (str "") = str "d41d8cd98f00b204e9800998ecf8427e".
Proof. vm_compute. reflexivity. Qed.

Example md5_abc :
  md5_hex (str "abc") = str "900150983cd24fb0d6963f7d28e17f72".
Proof. vm_compute. reflexivity. Qed.

Example md5_message_digest :
  md5_hex (str "message digest") = str "f96b697d7cb7938d525a2f31aaf161d0".
Proof. vm_compute. reflexivity. Qed.

Example md5_alphabet :
  md5_hex (str "abcdefghijklmnopqrstuvwxyz")
  = str "c3fcd3d76192e4007dfb496cca67e13b".
Proof. vm_compute. reflexivity. Qed.

Example md5_eighty_digits :
  md5_hex
    (str "12345678901234567890123456789012345678901234567890123456789012345678901234567890")
  = str "57edf4a22be3c955ac49da2e2107b67a".
Proof. vm_compute. reflexivity. Qed.

(** The fuel of [blocks] is enough: the blocks are the whole padded
    message. *)
Lemma blocks_concat fuel :
  forall bytes, length bytes <= fuel -> concat (blocks fuel bytes) = bytes.
Proof.
  induction fuel as [|fuel IH]; intros bytes Hlen.
  - destruct bytes; [reflexivity | simpl in Hlen; lia].
  - destruct bytes as [|b bytes]; [reflexivity|].
    change (blocks (S fuel) (b :: bytes))
      with (firstn 64 (b :: bytes) :: blocks fuel (skipn 64 (b :: bytes))).
    cbn [concat]. rewrite IH.
    + apply firstn_skipn.
    + rewrite length_skipn. cbn [length] in *. lia.
Qed.








End DigestFacts.



(* ------------------------------------------------------------------ *)
(** ** QueryExpander *)

Section ExpanderFacts.

Import QueryExpander.

Lemma string_eqb_eq a b : string_eqb a b = true <-> a = b.
Proof.
  unfold string_eqb. destruct (list_eq_dec ascii_dec a b); split;
    intros H; congruence.
Qed.

Lemma existsb_string_eqb x seen :
  existsb (string_eqb x) seen = true <-> In x seen.
Proof.
  rewrite existsb_exists. split.
  - intros (y & Hy & E). apply string_eqb_eq in E. subst. exact Hy.
  - intros H. exists x. split; [exact H | apply string_eqb_eq; reflexivity].
Qed.

Lemma in_uniq_go xs :
  forall seen x, In x (uniq_go seen xs) <-> In x xs /\ ~ In x seen.
Proof.
  induction xs as [|y xs IH]; intros seen x; simpl.
  - tauto.
  - destruct (existsb (string_eqb y) seen) eqn:E.
    + apply existsb_string_eqb in E. rewrite IH. split.
      * tauto.
      * intros [[-> | H] Hn]; tauto.
    + assert (Hy : ~ In y seen).
      { intros H. apply existsb_string_eqb in H. congruence. }
      simpl. rewrite IH. simpl. split.
      * intros [<- | [H Hn]]; [tauto|]. split; [tauto|]. tauto.
      * intros [[<- | H] Hn]; [tauto|].
        destruct (list_eq_dec ascii_dec y x) as [-> | Hne]; [tauto|].
        right. split; [exact H|]. intros [E' | H']; tauto.
Qed.

(** Removing the duplicates keeps exactly the elements. *)
Lemma in_uniq xs x : In x (uniq xs) <-> In x xs.
Proof. unfold uniq. rewrite in_uniq_go. simpl. tauto. Qed.

Lemma uniq_go_NoDup xs :
  forall seen, NoDup (uniq_go seen xs).
Proof.
  induction xs as [|y xs IH]; intros seen; simpl; [constructor|].
  destruct (existsb (string_eqb y) seen); [apply IH|].
  constructor; [|apply IH].
  rewrite in_uniq_go. simpl. tauto.
Qed.

(** The result of [expandQuery] has no duplicates: it lists a set. *)
Lemma expandQuery_NoDup year query : NoDup (expandQuery year query).
Proof. apply uniq_go_NoDup. Qed.

(** The query itself is always the first variant. *)
Lemma expandQuery_head year query :
  exists rest, expandQuery year query = query :: rest.
Proof.
  unfold expandQuery, uniq, candidates. simpl. eexists. reflexivity.
Qed.

End ExpanderFacts.

(** C7, counterexample: the variants of "july 4" depend on the year in
    which [expandQuery] is called: the variant 2025-07-04 is produced by a
    call made in 2025 and not by a call made in 2026. *)
Lemma expand_time_counterexample :
  In (str "2025-07-04") (QueryExpander.expandQuery 2025 (str "july 4"))
  /\ ~ In (str "2025-07-04") (QueryExpander.expandQuery 2026 (str "july 4"))
  /\ QueryExpander.expandQuery 2025 (str "july 4")
     <> QueryExpander.expandQuery 2026 (str "july 4").
Proof.
  assert (H1 : In (str "2025-07-04")
                 (QueryExpander.expandQuery 2025 (str "july 4")))
    by (vm_compute; tauto).
  assert (H2 : ~ In (str "2025-07-04")
                 (QueryExpander.expandQuery 2026 (str "july 4"))).
  { intros H.
    assert (E : existsb (string_eqb (str "2025-07-04"))
                  (QueryExpander.expandQuery 2026 (str "july 4")) = false)
      by (vm_compute; reflexivity).
    apply existsb_string_eqb in H. congruence. }
  split; [exact H1|]. split; [exact H2|].
  intros E. rewrite E in H1. exact (H2 H1).
Qed.

(** C7, as amended: [expandQuery] is a deterministic function of the query
    and of the calendar year at the time of the call: two calls with the
    same query return the same variants when they are made in the same
    year, or when the query has no month-and-day pattern. *)
Theorem expand_deterministic (query : jstring) (year1 year2 : nat) :
  year1 = year2
  \/ QueryExpander.find_date None (toLowerCase query) = None ->
  QueryExpander.expandQuery year1 query
  = QueryExpander.expandQuery year2 query.
Proof.
  intros [-> | H]; [reflexivity|].
  unfold QueryExpander.expandQuery, QueryExpander.candidates.
  rewrite H. reflexivity.
Qed.

Lemma expand_deterministic_witness :
  (2025 = 2026
   \/ QueryExpander.find_date None (toLowerCase (str "daily notes")) = None)
  /\ QueryExpander.expandQuery 2025 (str "daily notes")
     = QueryExpander.expandQuery 2026 (str "daily notes").
Proof.
  assert (H : 2025 = 2026
              \/ QueryExpander.find_date None (toLowerCase (str "daily notes"))
                 = None)
    by (right; vm_compute; reflexivity).
  split; [exact H|].
  exact (expand_deterministic (str "daily notes") 2025 2026 H).
Defined.

(** C9: what [expandQuery] returns for "meeting on July 4th" in any year:
    the variants 07-04, <year>-07-04, ## Meetings and meeting are there,
    the month-and-day variant is the lower-case "july 4", taken from the
    lower-cased query, and "July 4" is not a variant. *)
Theorem expand_meeting_july_4th (year : nat) :
  let variants := QueryExpander.expandQuery year (str "meeting on July 4th") in
  In (str "07-04") variants
  /\ In (of_nat year ++ str "-07-04") variants
  /\ In (str "## Meetings") variants
  /\ In (str "meeting") variants
  /\ In (str "july 4") variants
  /\ ~ In (str "July 4") variants.
Proof.
  intros variants. unfold variants, QueryExpander.expandQuery.
  rewrite !in_uniq.
  assert (E : QueryExpander.candidates year (str "meeting on July 4th")
              = [ str "meeting on July 4th" ]
                ++ (let dv :=
                      [ str "07-04"; of_nat year ++ str "-07-04"; str "07/04";
                        str "0704"; of_nat year ++ str "0704"; str "july 4";
                        str "july-4"; str "04"; str "07" ] in dv ++ dv)
                ++ [ str "meeting"; str "july"; str "4th" ]
                ++ [ str "## Meetings"; str "Meetings & Appointments";
                     str "meeting notes"; str "appointment"; str "Meeting";
                     str "meetings" ]
                ++ [ str "07-04 meeting"; str "07-04 Meeting";
                     str "Meeting 07-04" ]) by reflexivity.
  rewrite E. cbv zeta.
  repeat split; try (simpl; tauto).
  intros H. simpl in H.
  repeat match goal with
         | H : _ \/ _ |- _ => destruct H as [H | H]
         end;
    try discriminate H; try contradiction.
  - apply (f_equal (@rev ascii)) in H. rewrite rev_app_distr in H.
    discriminate H.
  - apply (f_equal (@rev ascii)) in H. rewrite rev_app_distr in H.
    discriminate H.
  - apply (f_equal (@rev ascii)) in H. rewrite rev_app_distr in H.
    discriminate H.
  - apply (f_equal (@rev ascii)) in H. rewrite rev_app_distr in H.
    discriminate H.
Qed.

(* ------------------------------------------------------------------ *)
(** ** Lexical scoring *)

Section ScoringFacts.

Import Scoring.
Local Open Scope Q_scope.

Lemma ltb_lt a b : ltb a b = true <-> a < b.
Proof.
  unfold ltb. rewrite negb_true_iff. split.
  - intros H. apply Qnot_le_lt. intros Hle.
    apply Qle_bool_iff in Hle. congruence.
  - intros H. destruct (Qle_bool b a) eqn:E; [|reflexivity].
    apply Qle_bool_iff in E. destruct (Qlt_not_le _ _ H E).
Qed.

Lemma ltb_ge a b : ltb a b = false <-> b <= a.
Proof.
  unfold ltb. rewrite negb_false_iff. apply Qle_bool_iff.
Qed.

Lemma min_le_r a b : min a b <= b.
Proof.
  unfold min. destruct (ltb b a) eqn:E.
  - apply Qle_refl.
  - apply ltb_ge in E. exact E.
Qed.

Lemma min_glb c a b : c <= a -> c <= b -> c <= min a b.
Proof. unfold min. destruct (ltb b a); auto. Qed.

Lemma bonus_ge cond w s : 0 <= w -> s <= bonus cond w s.
Proof.
  intros Hw. unfold bonus. destruct cond; [|apply Qle_refl].
  rewrite <- (Qplus_0_r s) at 1. apply Qplus_le_compat; [apply Qle_refl | exact Hw].
Qed.

Lemma bonus_le cond w s : 0 <= w -> bonus cond w s <= s + w.
Proof.
  intros Hw. unfold bonus. destruct cond; [apply Qle_refl|].
  rewrite <- (Qplus_0_r s) at 1. apply Qplus_le_compat; [apply Qle_refl | exact Hw].
Qed.

Lemma word_bonus_ge text title filePath s word :
  s <= word_bonus text title filePath s word.
Proof.
  unfold word_bonus. destruct (2 <? length word)%nat; [|apply Qle_refl].
  eapply Qle_trans; [|apply bonus_ge; discriminate].
  eapply Qle_trans; [|apply bonus_ge; discriminate].
  apply bonus_ge. discriminate.
Qed.

Lemma fold_word_bonus_ge text title filePath words :
  forall s, s <= fold_left (word_bonus text title filePath) words s.
Proof.
  induction words as [|w words IH]; intros s; simpl; [apply Qle_refl|].
  eapply Qle_trans; [apply word_bonus_ge | apply IH].
Qed.

(** [calculateTextScore] stays between its base and its cap. *)
Lemma calculateTextScore_range query p :
  1 # 2 <= calculateTextScore query p /\ calculateTextScore query p <= 1.
Proof.
  unfold calculateTextScore. split; [|apply min_le_r].
  apply min_glb; [|discriminate].
  eapply Qle_trans; [|apply bonus_ge; discriminate].
  eapply Qle_trans; [|apply fold_word_bonus_ge].
  eapply Qle_trans; [|apply bonus_ge; discriminate].
  eapply Qle_trans; [|apply bonus_ge; discriminate].
  eapply Qle_trans; [|apply bonus_ge; discriminate].
  discriminate.
Qed.

(** The score of a lexical hit: the boost for exact matches comes after
    the cap, so the bound is 1.2 and not 1. *)
Lemma textScore_range query p :
  1 # 2 <= textScore query p /\ textScore query p <= 12 # 10.
Proof.
  destruct (calculateTextScore_range query p) as [Hlo Hhi].
  unfold textScore. split.
  - eapply Qle_trans; [exact Hlo | apply bonus_ge; discriminate].
  - eapply Qle_trans; [apply bonus_le; discriminate|].
    setoid_replace (12 # 10) with (1 + (2 # 10)) by reflexivity.
    apply Qplus_le_compat; [exact Hhi | apply Qle_refl].
Qed.

End ScoringFacts.

(** C1, the code on a note that matches everywhere: for the query "plan"
    and the note [plan_payload], [calculateTextScore] returns its cap 1.0,
    the boost for exact matches then adds 0.2 to the capped value, and
    [search] returns the hit with the score 1.2, outside of [0,1]. *)
Theorem lexical_score_above_one :
  (Scoring.calculateTextScore (str "plan") plan_payload == 1)%Q
  /\ (Scoring.textScore (str "plan") plan_payload == 12 # 10)%Q
  /\ exists h,
       fst (Engine.search plan_services (str "plan") 10 []) = inr [h]
       /\ searchType h = full_text
       /\ (score h == 12 # 10)%Q
       /\ (1 < score h)%Q.
Proof.
  split; [vm_compute; reflexivity|].
  split; [vm_compute; reflexivity|].
  eexists. split; [vm_compute; reflexivity|].
  split; [reflexivity|].
  split; vm_compute; reflexivity.
Qed.

(* ------------------------------------------------------------------ *)
(** ** The accumulator and its keys *)

Section KeyFacts.

Lemma digits_no_underscore d :
  ~ In underscore (list_ascii_of_string (NilEmpty.string_of_uint d)).
Proof.
  induction d; simpl; intros H; try contradiction;
    destruct H as [H | H]; try discriminate H; auto.
Qed.

Lemma of_nat_no_underscore n : ~ In underscore (of_nat n).
Proof. apply digits_no_underscore. Qed.

Lemma of_nat_inj n m : of_nat n = of_nat m -> n = m.
Proof.
  unfold of_nat. intros H.
  apply (f_equal string_of_list_ascii) in H.
  rewrite !string_of_list_ascii_of_string in H.
  apply (f_equal NilEmpty.uint_of_string) in H.
  rewrite !NilEmpty.usu in H. injection H as H.
  apply Unsigned.to_uint_inj. exact H.
Qed.

(** A string is cut in one way only at its last underscore. *)
Lemma cut_at_last (x : ascii) (s : jstring) :
  forall t a b,
    ~ In x s -> ~ In x t -> s ++ x :: a = t ++ x :: b -> s = t /\ a = b.
Proof.
  induction s as [|c s IH]; intros t a b Hs Ht E.
  - destruct t as [|d t]; simpl in E.
    + injection E as ->. split; reflexivity.
    + injection E as <- _. destruct Ht. left. reflexivity.
  - destruct t as [|d t]; simpl in E.
    + injection E as -> _. destruct Hs. left. reflexivity.
    + injection E as -> E.
      destruct (IH t a b) as [-> ->]; [| |exact E|split; reflexivity].
      * intros H. apply Hs. right. exact H.
      * intros H. apply Ht. right. exact H.
Qed.


End KeyFacts.

Section MapFacts.

Import ResultMap.

Lemma string_eqb_refl k : string_eqb k k = true.
Proof. apply string_eqb_eq. reflexivity. Qed.

Lemma string_eqb_neq a b : a <> b -> string_eqb a b = false.
Proof.
  intros H. destruct (string_eqb a b) eqn:E; [|reflexivity].
  apply string_eqb_eq in E. contradiction.
Qed.

Lemma get_set_same m k v : get (set m k v) k = Some v.
Proof.
  unfold get. induction m as [|e m IH]; simpl.
  - rewrite string_eqb_refl. reflexivity.
  - destruct (string_eqb (fst e) k) eqn:E; simpl.
    + rewrite string_eqb_refl. reflexivity.
    + rewrite E. exact IH.
Qed.

Lemma get_set_other m k k' v : k' <> k -> get (set m k v) k' = get m k'.
Proof.
  intros Hne. unfold get. induction m as [|e m IH]; simpl.
  - rewrite (string_eqb_neq k k'); [reflexivity | congruence].
  - destruct (string_eqb (fst e) k) eqn:E; simpl.
    + apply string_eqb_eq in E.
      rewrite !(string_eqb_neq _ k'); congruence.
    + destruct (string_eqb (fst e) k'); [reflexivity | exact IH].
Qed.






Lemma set_Forall (P : jstring * hit -> Prop) m k v :
  Forall P m -> P (k, v) -> Forall P (set m k v).
Proof.
  intros Hm Hv. induction Hm as [|e m He Hm IH]; simpl.
  - constructor; [exact Hv | constructor].
  - destruct (string_eqb (fst e) k); constructor; assumption.
Qed.

Lemma keep_best_Forall (P : hit -> Prop) m c :
  Forall (fun e => P (snd e)) m -> P c ->
  Forall (fun e => P (snd e)) (keep_best m c).
Proof.
  intros Hm Hc. unfold keep_best.
  destruct (negb _ || _); [|exact Hm].
  apply set_Forall; [exact Hm | exact Hc].
Qed.


End MapFacts.

(* ------------------------------------------------------------------ *)
(** ** Sorting by score *)

Section SortFacts.

Lemma sort_insert_perm {A} (cmp : A -> A -> Q) x l :
  Permutation (sort_insert cmp x l) (x :: l).
Proof.
  induction l as [|y l IH]; simpl; [apply Permutation_refl|].
  destruct (Scoring.ltb 0 (cmp y x)); [apply Permutation_refl|].
  eapply Permutation_trans; [apply perm_skip; exact IH | apply perm_swap].
Qed.

Lemma fold_sort_insert_perm {A} (cmp : A -> A -> Q) l :
  forall acc,
    Permutation (fold_left (fun sorted x => sort_insert cmp x sorted) l acc)
                (acc ++ l).
Proof.
  induction l as [|x l IH]; intros acc; simpl.
  - rewrite app_nil_r. apply Permutation_refl.
  - eapply Permutation_trans; [apply IH|].
    eapply Permutation_trans;
      [apply Permutation_app_tail; apply sort_insert_perm|].
    simpl. apply Permutation_middle.
Qed.

(** Sorting rearranges the hits and loses none. *)
Lemma js_sort_perm {A} (cmp : A -> A -> Q) l : Permutation (js_sort cmp l) l.
Proof. apply (fold_sort_insert_perm cmp l []). Qed.






End SortFacts.

(* ------------------------------------------------------------------ *)
(** ** The search *)

Section SearchFacts.

Variable env : services.









(** The value of a successful [search]: the accumulator of the semantic
    legs, then of the full-text legs, sorted and cut. *)
Lemma search_value query limit h hits h' :
  Engine.search env query limit h = (inr hits, h') ->
  exists m1 h1 m2,
    for_of (QueryExpander.expandQuery (getFullYear env) query)
           (Engine.semantic_leg env limit) [] h = (inr m1, h1)
    /\ Engine.addFullTextResults env
         (QueryExpander.expandQuery (getFullYear env) query) m1 limit h1
       = (m2, h')
    /\ hits
       = firstn limit (js_sort Engine.by_score_desc (ResultMap.values m2)).
Proof.
  unfold Engine.search, try_catch, bind. intros E.
  destruct (for_of (QueryExpander.expandQuery (getFullYear env) query)
              (Engine.semantic_leg env limit) [] h) as [[e | m1] h1] eqn:E1;
    [discriminate|].
  destruct (Engine.addFullTextResults env _ m1 limit h1) as [m2 h2] eqn:E2.
  unfold ret in E. injection E as <- <-.
  exists m1, h1, m2. auto.
Qed.


End SearchFacts.

(* ------------------------------------------------------------------ *)
(** ** The ranking and the accumulator of a search *)







(** C2, counterexample: called with the empty query, [search] raises no
    error; it asks for the embedding of the empty string, queries the
    store and scrolls it, and returns the hits. *)
Lemma empty_query_counterexample :
  (exists hits,
     fst (Engine.search sample_services (str "") 10 []) = inr hits
     /\ length hits = 2)
  /\ map (fun ev => match ev with
                    | EvEmbeddings _ _ => 1
                    | EvSearch _ _ _ => 2
                    | EvScroll _ _ _ => 3
                    | _ => 0
                    end)
         (snd (Engine.search sample_services (str "") 10 []))
     = [1; 2; 3].
Proof.
  split.
  - eexists. split; [vm_compute; reflexivity | reflexivity].
  - vm_compute. reflexivity.
Qed.

Section HistoryFacts.

Variable env : services.

Lemma grows_ret {A} (a : A) : grows (ret a).
Proof. intros h. exists []. simpl. rewrite app_nil_r. reflexivity. Qed.

Lemma grows_throw {A} (e : error) : grows (@throw A e).
Proof. intros h. exists []. simpl. rewrite app_nil_r. reflexivity. Qed.

Lemma grows_request {A} (answer : history -> outcome A) log :
  grows (request answer log).
Proof. intros h. eexists. reflexivity. Qed.

Lemma grows_bind {A B} (m : M A) (k : A -> M B) :
  grows m -> (forall a, grows (k a)) -> grows (bind m k).
Proof.
  intros Hm Hk h. unfold bind. destruct (Hm h) as [evs Hevs].
  destruct (m h) as [[e | a] h1]; simpl in Hevs; subst h1.
  - exists evs. reflexivity.
  - destruct (Hk a (h ++ evs)) as [evs' Hevs'].
    exists (evs ++ evs'). rewrite Hevs'. rewrite app_assoc. reflexivity.
Qed.

Lemma grows_try_catch {A} (m : M A) handler :
  grows m -> (forall e, grows (handler e)) -> grows (try_catch m handler).
Proof.
  intros Hm Hh h. unfold try_catch. destruct (Hm h) as [evs Hevs].
  destruct (m h) as [[e | a] h1]; simpl in Hevs; subst h1.
  - destruct (Hh e (h ++ evs)) as [evs' Hevs'].
    exists (evs ++ evs'). rewrite Hevs'. rewrite app_assoc. reflexivity.
  - exists evs. reflexivity.
Qed.

Lemma grows_for_of {A S} (body : S -> A -> M S) xs :
  (forall acc x, grows (body acc x)) -> forall acc, grows (for_of xs body acc).
Proof.
  intros Hbody. induction xs as [|x xs IH]; intros acc; simpl.
  - apply grows_ret.
  - apply grows_bind; [apply Hbody | exact IH].
Qed.

Lemma embeds_first_bind {A B} q (m : M A) (k : A -> M B) :
  embeds_first q m -> (forall a, grows (k a)) -> embeds_first q (bind m k).
Proof.
  intros Hm Hk h. unfold bind. destruct (Hm h) as (r & rest & Hevs).
  destruct (m h) as [[e | a] h1]; simpl in Hevs; subst h1.
  - exists r, rest. reflexivity.
  - destruct (Hk a (h ++ EvEmbeddings q r :: rest)) as [evs' Hevs'].
    exists r, (rest ++ evs'). rewrite Hevs'. rewrite <- app_assoc.
    reflexivity.
Qed.

Lemma embeds_first_try_catch {A} q (m : M A) handler :
  embeds_first q m -> (forall e, grows (handler e)) ->
  embeds_first q (try_catch m handler).
Proof.
  intros Hm Hh h. unfold try_catch. destruct (Hm h) as (r & rest & Hevs).
  destruct (m h) as [[e | a] h1]; simpl in Hevs; subst h1.
  - destruct (Hh e (h ++ EvEmbeddings q r :: rest)) as [evs' Hevs'].
    exists r, (rest ++ evs'). rewrite Hevs'. rewrite <- app_assoc.
    reflexivity.
  - exists r, rest. reflexivity.
Qed.

Lemma generateEmbedding_first q :
  embeds_first q (Engine.generateEmbedding env q).
Proof.
  apply embeds_first_try_catch; [|intros e; apply grows_throw].
  intros h. eexists. exists []. reflexivity.
Qed.

Lemma generateEmbedding_grows q : grows (Engine.generateEmbedding env q).
Proof.
  intros h. destruct (generateEmbedding_first q h) as (r & rest & E).
  eexists. exact E.
Qed.

Lemma semantic_leg_grows limit m q : grows (Engine.semantic_leg env limit m q).
Proof.
  apply grows_bind; [apply generateEmbedding_grows|]. intros v.
  apply grows_bind; [apply grows_request|]. intros res. apply grows_ret.
Qed.

Lemma full_text_leg_grows limit m q :
  grows (Engine.full_text_leg env limit m q).
Proof.
  apply grows_bind; [apply grows_request|]. intros res. apply grows_ret.
Qed.

Lemma addFullTextResults_grows limit queries :
  forall m h,
    exists evs,
      snd (Engine.addFullTextResults env queries m limit h) = h ++ evs.
Proof.
  induction queries as [|q queries IH]; intros m h; simpl.
  - exists []. rewrite app_nil_r. reflexivity.
  - destruct (full_text_leg_grows limit m q h) as [evs Hevs].
    destruct (Engine.full_text_leg env limit m q h) as [[e | m1] h1];
      simpl in Hevs; subst h1.
    + exists evs. reflexivity.
    + destruct (IH m1 (h ++ evs)) as [evs' Hevs'].
      exists (evs ++ evs'). rewrite Hevs'. rewrite app_assoc. reflexivity.
Qed.

(** The first thing a search does is to request the embedding of the
    query, its first variant. *)
Lemma search_embeds_first query limit :
  embeds_first query (Engine.search env query limit).
Proof.
  unfold Engine.search.
  destruct (expandQuery_head (getFullYear env) query) as [rest ->].
  apply embeds_first_try_catch; [|intros e; apply grows_throw].
  apply embeds_first_bind.
  - cbn [for_of]. apply embeds_first_bind.
    + unfold Engine.semantic_leg. apply embeds_first_bind.
      * apply generateEmbedding_first.
      * intros v. apply grows_bind; [apply grows_request|].
        intros res. apply grows_ret.
    + intros acc. apply grows_for_of. intros acc' x.
      apply semantic_leg_grows.
  - intros m. apply grows_bind.
    + intros h. destruct (addFullTextResults_grows limit (query :: rest) m h)
        as [evs Hevs].
      exists evs. destruct (Engine.addFullTextResults _ _ _ _ _). exact Hevs.
    + intros m'. apply grows_ret.
Qed.

End HistoryFacts.

(** C2, as amended: the tool handler rejects a missing or empty query with
    an [InvalidParams] error before anything is asked of a service: the
    history is unchanged.  The check is the handler's, not the engine's:
    [search] itself begins, for the empty query as for any other, by
    requesting the embedding of its first variant, the query. *)
Theorem empty_query_rejected_by_tool (env : services) (limit : option nat)
  (h : history) :
  Tool.handleSearchNotes env
    {| Tool.arg_query := Some []; Tool.arg_limit := limit |} h
  = (inl (McpError InvalidParams (str "Query parameter is required")), h)
  /\ Tool.handleSearchNotes env
       {| Tool.arg_query := None; Tool.arg_limit := limit |} h
     = (inl (McpError InvalidParams (str "Query parameter is required")), h)
  /\ forall n,
       exists r rest,
         snd (Engine.search env [] n h) = h ++ EvEmbeddings [] r :: rest.
Proof.
  split; [reflexivity|]. split; [reflexivity|].
  intros n. apply search_embeds_first.
Qed.

(* ------------------------------------------------------------------ *)
(** ** Indexing *)

Section IndexFacts.

Variable env : services.

Lemma generateEmbedding_run q h :
  Engine.generateEmbedding env q h
  = (ollama_embeddings env h q,
     h ++ [EvEmbeddings q (ollama_embeddings env h q)]).
Proof.
  unfold Engine.generateEmbedding, try_catch, request, throw.
  destruct (ollama_embeddings env h q); reflexivity.
Qed.

(** A run of the embedding loop: either every chunk was embedded, and the
    points are complete, or the loop stopped at the first failure. *)
Lemma embed_chunks_run d chunks :
  forall i pts h,
    match Engine.embed_chunks env d i chunks pts h with
    | (inr pts', h') =>
        exists evs new,
          h' = h ++ evs /\ Forall embedded evs
          /\ length evs = length chunks
          /\ pts' = pts ++ new /\ points_of d i chunks new
    | (inl e, h') =>
        exists evs prompt,
          h' = h ++ evs ++ [EvEmbeddings prompt (inl e)]
          /\ Forall embedded evs
    end.
Proof.
  induction chunks as [|c chunks IH]; intros i pts h.
  - simpl. exists [], []. rewrite !app_nil_r.
    repeat split; constructor.
  - cbn [Engine.embed_chunks]. unfold bind.
    rewrite generateEmbedding_run.
    destruct (ollama_embeddings env h (Chunker.text c)) as [e | v] eqn:Ev.
    + exists [], (Chunker.text c). split; [reflexivity | constructor].
    + specialize (IH (S i) (pts ++ [Engine.make_point d i c v])
                    (h ++ [EvEmbeddings (Chunker.text c) (inr v)])).
      destruct (Engine.embed_chunks env d (S i) chunks _ _) as [[e | pts'] h'].
      * destruct IH as (evs & prompt & -> & Hevs).
        exists (EvEmbeddings (Chunker.text c) (inr v) :: evs), prompt.
        split; [rewrite <- app_assoc; reflexivity|].
        constructor; [eexists; eexists; reflexivity | exact Hevs].
      * destruct IH as (evs & new & -> & Hevs & Hlen & -> & Hnew).
        exists (EvEmbeddings (Chunker.text c) (inr v) :: evs),
               (Engine.make_point d i c v :: new).
        split; [rewrite <- app_assoc; reflexivity|].
        split; [constructor; [eexists; eexists; reflexivity | exact Hevs]|].
        split; [simpl; rewrite Hlen; reflexivity|].
        split; [rewrite <- app_assoc; reflexivity|].
        unfold points_of. cbn [length seq combine].
        constructor; [exists v; reflexivity | exact Hnew].
Qed.

Lemma embedded_not_failed evs prompt e :
  Forall embedded evs -> ~ In (EvEmbeddings prompt (inl e)) evs.
Proof.
  intros H Hin. rewrite Forall_forall in H.
  destruct (H _ Hin) as (q & v & E). discriminate E.
Qed.

Lemma embedded_not_upsert evs pts o :
  Forall embedded evs -> ~ In (EvUpsert pts o) evs.
Proof.
  intros H Hin. rewrite Forall_forall in H.
  destruct (H _ Hin) as (q & v & E). discriminate E.
Qed.

End IndexFacts.

(** C6: what [processDocument] adds to the history.  If an embedding
    request of the run has failed, the call ends with that error and no
    upsert was requested.  In any case the added requests are either
    without any upsert, and the call has failed, or they are the
    successful embeddings of all the chunks followed by one upsert, the
    last request, which carries the points of all the chunks of the
    document. *)
Theorem index_all_or_nothing (env : services) (d : document) (h : history) :
  exists evs,
    snd (Engine.processDocument env d h) = h ++ evs
    /\ (forall prompt e,
          In (EvEmbeddings prompt (inl e)) evs ->
          fst (Engine.processDocument env d h) = inl e
          /\ forall pts o, ~ In (EvUpsert pts o) evs)
    /\ (((exists e, fst (Engine.processDocument env d h) = inl e)
         /\ forall pts o, ~ In (EvUpsert pts o) evs)
        \/ exists embeds pts,
             evs = embeds
                   ++ [EvUpsert pts (fst (Engine.processDocument env d h))]
             /\ Forall embedded embeds
             /\ length embeds = length (Chunker.chunkDocument d)
             /\ points_of d 0 (Chunker.chunkDocument d) pts).
Proof.
  unfold Engine.processDocument, try_catch, bind.
  pose proof (embed_chunks_run env d (Chunker.chunkDocument d) 0 [] h) as R.
  destruct (Engine.embed_chunks env d 0 (Chunker.chunkDocument d) [] h)
    as [[e | pts] h1].
  - destruct R as (evs & prompt & -> & Hevs).
    assert (Hno : forall pts o,
               ~ In (EvUpsert pts o) (evs ++ [EvEmbeddings prompt (inl e)])).
    { intros pts o Hin. apply in_app_or in Hin.
      destruct Hin as [Hin | [Hin | []]]; [|discriminate Hin].
      exact (embedded_not_upsert evs pts o Hevs Hin). }
    exists (evs ++ [EvEmbeddings prompt (inl e)]).
    split; [reflexivity|]. split.
    + intros q e' Hin. split; [|exact Hno].
      apply in_app_or in Hin. destruct Hin as [Hin | [Hin | []]].
      * destruct (embedded_not_failed evs q e' Hevs Hin).
      * injection Hin as _ <-. reflexivity.
    + left. split; [exists e; reflexivity | exact Hno].
  - destruct R as (evs & new & -> & Hevs & Hlen & -> & Hnew).
    unfold request, throw. cbn [app].
    assert (Hnone : forall q e',
               In (EvEmbeddings q (inl e'))
                  (evs ++ [EvUpsert new (qdrant_upsert env (h ++ evs) new)]) ->
               False).
    { intros q e' Hin. apply in_app_or in Hin.
      destruct Hin as [Hin | [Hin | []]]; [|discriminate Hin].
      exact (embedded_not_failed evs q e' Hevs Hin). }
    exists (evs ++ [EvUpsert new (qdrant_upsert env (h ++ evs) new)]).
    destruct (qdrant_upsert env (h ++ evs) new) as [e | u]; cbn [fst snd].
    + split; [rewrite app_assoc; reflexivity|]. split.
      * intros q e' Hin. destruct (Hnone q e' Hin).
      * right. exists evs, new. auto.
    + split; [rewrite app_assoc; reflexivity|]. split.
      * intros q e' Hin. destruct (Hnone q e' Hin).
      * right. exists evs, new. auto.
Qed.

Lemma index_all_or_nothing_witness :
  In (EvEmbeddings (Chunker.text seam_chunk)
        (inl (Error (str "Ollama API error: 500"))))
     (snd (Engine.processDocument flaky_services seam_example []))
  /\ fst (Engine.processDocument flaky_services seam_example [])
     = inl (Error (str "Ollama API error: 500"))
  /\ forall pts o,
       ~ In (EvUpsert pts o)
            (snd (Engine.processDocument flaky_services seam_example [])).
Proof.
  destruct (index_all_or_nothing flaky_services seam_example [])
    as (evs & Hh & Hfail & _).
  cbn [app] in Hh. rewrite Hh.
  assert (Hin : In (EvEmbeddings (Chunker.text seam_chunk)
                      (inl (Error (str "Ollama API error: 500")))) evs)
    by (rewrite <- Hh; vm_compute; right; left; reflexivity).
  split; [exact Hin|].
  exact (Hfail _ _ Hin).
Defined.

(* ================================================================== *)
(** * Further properties of the code *)

(* ------------------------------------------------------------------ *)
(** ** Chunker: shape of the chunks *)

Section ChunkShape.

Import Chunker.

Lemma dropWhile_app_keep (x rest : jstring) c r :
  rest = c :: r -> is_ws c = false ->
  exists x', dropWhile is_ws (x ++ rest) = x' ++ rest.
Proof.
  intros -> Hc. induction x as [|d x IH]; simpl.
  - rewrite Hc. exists []. reflexivity.
  - destruct (is_ws d); [exact IH|]. exists (d :: x). reflexivity.
Qed.

Lemma trim_last_not_ws s a :
  hd_error (rev (trim s)) = Some a -> is_ws a = false.
Proof.
  unfold trim. rewrite rev_involutive.
  destruct (dropWhile is_ws (rev (dropWhile is_ws s))) as [|c r] eqn:E;
    [discriminate|].
  intros H. injection H as <-. exact (dropWhile_head _ _ _ _ E).
Qed.

Lemma trim_head_not_ws s a :
  hd_error (trim s) = Some a -> is_ws a = false.
Proof.
  unfold trim.
  destruct (dropWhile is_ws s) as [|c r] eqn:E; [discriminate|].
  pose proof (dropWhile_head _ _ _ _ E) as Hc.
  cbn [rev].
  destruct (dropWhile_app_keep (rev r) [c] c [] eq_refl Hc) as [x' ->].
  rewrite rev_app_distr. cbn [rev app]. intros H. injection H as <-. exact Hc.
Qed.

Lemma flush_trimmed st : all_trimmed (chunks st) -> all_trimmed (flush st).
Proof.
  intros H c Hc. unfold flush in Hc. apply in_app_or in Hc.
  destruct Hc as [Hc | [<- | []]]; [exact (H c Hc)|].
  exists (currentChunk st). reflexivity.
Qed.

Lemma step_trimmed st p :
  all_trimmed (chunks st) -> all_trimmed (chunks (step st p)).
Proof.
  intros H. unfold step.
  destruct (_ && _); cbn [chunks]; [apply flush_trimmed|]; exact H.
Qed.

Lemma run_trimmed ps : all_trimmed (chunks (run ps)).
Proof.
  unfold run.
  assert (G : forall l st, all_trimmed (chunks st) ->
                           all_trimmed (chunks (fold_left step l st))).
  { induction l as [|p l IH]; intros st H; simpl; [exact H|].
    apply IH. apply step_trimmed. exact H. }
  apply G. intros c [].
Qed.

Lemma chunkDocument_trimmed d : all_trimmed (chunkDocument d).
Proof.
  unfold chunkDocument.
  pose proof (run_trimmed (paragraphs (doc_content d))) as H.
  destruct (truthy _).
  - destruct (0 <? _); [apply flush_trimmed; exact H|].
    intros c [<- | []]. eexists. reflexivity.
  - destruct (0 <? _); [exact H|].
    intros c [<- | []]. eexists. reflexivity.
Qed.

Lemma flush_starts st : starts_in_step (chunks st) -> starts_in_step (flush st).
Proof.
  intros H i c Hc. unfold flush in Hc.
  destruct (Nat.lt_ge_cases i (length (chunks st))) as [Hlt | Hge].
  - rewrite nth_error_app1 in Hc by exact Hlt. exact (H i c Hc).
  - rewrite nth_error_app2 in Hc by exact Hge.
    destruct (i - length (chunks st)) as [|k] eqn:Ek.
    + simpl in Hc. injection Hc as <-. cbn [start].
      replace i with (length (chunks st)) by lia. reflexivity.
    + destruct k; discriminate Hc.
Qed.

Lemma run_starts ps : starts_in_step (chunks (run ps)).
Proof.
  unfold run.
  assert (G : forall l st, starts_in_step (chunks st) ->
                           starts_in_step (chunks (fold_left step l st))).
  { induction l as [|p l IH]; intros st H; simpl; [exact H|].
    apply IH. unfold step.
    destruct (_ && _); cbn [chunks]; [apply flush_starts|]; exact H. }
  apply G. intros [|i] c Hc; discriminate Hc.
Qed.

End ChunkShape.

(** X1: [chunkDocument] never returns an empty list, whatever the content:
    there is always a first chunk. *)
Theorem chunkDocument_not_empty (d : document) :
  exists c rest, Chunker.chunkDocument d = c :: rest.
Proof.
  unfold Chunker.chunkDocument.
  destruct (truthy _).
  - destruct (Nat.ltb_spec 0 (length (Chunker.flush
       (Chunker.run (Chunker.paragraphs (doc_content d)))))) as [H | H].
    + destruct (Chunker.flush _) as [|c rest]; [simpl in H; lia|].
      exists c, rest. reflexivity.
    + eexists. eexists. reflexivity.
  - destruct (Nat.ltb_spec 0 (length (Chunker.chunks
       (Chunker.run (Chunker.paragraphs (doc_content d)))))) as [H | H].
    + destruct (Chunker.chunks _) as [|c rest]; [simpl in H; lia|].
      exists c, rest. reflexivity.
    + eexists. eexists. reflexivity.
Qed.

(** X2: the chunk at position [i] of the result has the start [900 * i]:
    the starts are nominal offsets, 900 apart, whatever the lengths of the
    chunks. *)
Theorem chunk_starts (d : document) (i : nat) (c : Chunker.chunk) :
  nth_error (Chunker.chunkDocument d) i = Some c ->
  Chunker.start c = 900 * i.
Proof.
  intros H.
  assert (G : starts_in_step (Chunker.chunkDocument d)).
  { unfold Chunker.chunkDocument.
    pose proof (run_starts (Chunker.paragraphs (doc_content d))) as R.
    assert (F : starts_in_step
                  [ {| Chunker.text := trim (doc_content d);
                       Chunker.start := 0 |} ]).
    { intros [|[|k]] c0 Hc; try discriminate Hc.
      injection Hc as <-. reflexivity. }
    destruct (truthy _).
    - destruct (0 <? _); [apply flush_starts; exact R | exact F].
    - destruct (0 <? _); [exact R | exact F]. }
  rewrite (G i c H). unfold Chunker.maxChunkSize, Chunker.overlap.
  change (1000 - 100) with 900. lia.
Qed.

Lemma chunk_starts_witness :
  nth_error (Chunker.chunkDocument seam_example) 1 = Some seam_chunk
  /\ Chunker.start seam_chunk = 900 * 1.
Proof.
  assert (H : nth_error (Chunker.chunkDocument seam_example) 1
              = Some seam_chunk) by (vm_compute; reflexivity).
  split; [exact H|].
  exact (chunk_starts seam_example 1 seam_chunk H).
Defined.

(** X3: the text of a chunk neither begins nor ends with whitespace. *)
Theorem chunk_text_trimmed (d : document) (c : Chunker.chunk) (a : ascii) :
  In c (Chunker.chunkDocument d) ->
  hd_error (Chunker.text c) = Some a
  \/ hd_error (rev (Chunker.text c)) = Some a ->
  is_ws a = false.
Proof.
  intros Hc Ha. destruct (chunkDocument_trimmed d c Hc) as [s Hs].
  rewrite Hs in Ha. destruct Ha as [Ha | Ha].
  - exact (trim_head_not_ws s a Ha).
  - exact (trim_last_not_ws s a Ha).
Qed.

Lemma chunk_text_trimmed_witness :
  In seam_chunk (Chunker.chunkDocument seam_example)
  /\ (hd_error (Chunker.text seam_chunk) = Some "a"%char
      \/ hd_error (rev (Chunker.text seam_chunk)) = Some "a"%char)
  /\ is_ws "a"%char = false.
Proof.
  assert (Hin : In seam_chunk (Chunker.chunkDocument seam_example))
    by (vm_compute; right; left; reflexivity).
  assert (Ha : hd_error (Chunker.text seam_chunk) = Some "a"%char
               \/ hd_error (rev (Chunker.text seam_chunk)) = Some "a"%char)
    by (left; reflexivity).
  split; [exact Hin|]. split; [exact Ha|].
  exact (chunk_text_trimmed seam_example seam_chunk "a"%char Hin Ha).
Defined.

(* ------------------------------------------------------------------ *)
(** ** Chunker: what the chunks hold *)

Section ChunkContent.

Import Chunker.

Lemma sep_len_pos r : forall n, sep_len r = Some n -> 1 <= n <= length r.
Proof.
  induction r as [|c r IH]; simpl; intros n H; [discriminate|].
  destruct (is_ws c); [|discriminate].
  destruct (sep_len r) as [m|].
  - injection H as <-. specialize (IH m eq_refl). lia.
  - destruct (is_nl c); [injection H as <-; lia | discriminate].
Qed.

Lemma weight_cons p ps : weight (p :: ps) = length p + 2 + weight ps.
Proof. reflexivity. Qed.

(** The paragraphs and one separator each fit in the text and one
    separator. *)
Lemma split_go_weight s :
  forall skip cur,
    weight (split_go s skip cur) <= (length s - skip) + length cur + 2.
Proof.
  induction s as [|c r IH]; intros skip cur.
  - simpl. rewrite length_rev. lia.
  - destruct skip as [|k].
    + cbn [split_go].
      assert (Hkeep : weight (split_go r 0 (c :: cur))
                      <= length (c :: r) - 0 + length cur + 2).
      { specialize (IH 0 (c :: cur)). cbn [length] in *. lia. }
      destruct (is_nl c); [|exact Hkeep].
      destruct (sep_len r) as [n|] eqn:En; [|exact Hkeep].
      apply sep_len_pos in En. specialize (IH n []).
      rewrite weight_cons, length_rev. cbn [length] in *. lia.
    + cbn [split_go]. specialize (IH k cur). cbn [length]. lia.
Qed.

Lemma paragraphs_weight content :
  weight (paragraphs content) <= length content + 2.
Proof.
  pose proof (split_go_weight content 0 []) as H. cbn [length] in H.
  unfold paragraphs. lia.
Qed.

Lemma weight_app a b : weight (a ++ b) = weight a + weight b.
Proof.
  induction a as [|p a IH]; [reflexivity|].
  cbn [app]. rewrite !weight_cons, IH. lia.
Qed.

(** While the paragraphs fit in the limit the loop files nothing. *)
Lemma fold_step_quiet l :
  forall seen st,
    weight (seen ++ l) <= maxChunkSize + 2 ->
    chunks st = [] -> length (currentChunk st) <= weight seen ->
    chunks (fold_left step l st) = [].
Proof.
  induction l as [|p l IH]; intros seen st Hw Hc Hlen; simpl; [exact Hc|].
  assert (Hw' : weight ((seen ++ [p]) ++ l) <= maxChunkSize + 2)
    by (rewrite <- app_assoc; exact Hw).
  apply (IH (seen ++ [p])); [exact Hw' | |].
  - unfold step.
    destruct (Nat.ltb_spec maxChunkSize
                (length (currentChunk st) + length p)) as [Hbig | Hsmall].
    + exfalso. rewrite !weight_app, weight_cons in Hw'. lia.
    + cbn [andb chunks]. exact Hc.
  - unfold step.
    destruct (Nat.ltb_spec maxChunkSize
                (length (currentChunk st) + length p)) as [Hbig | Hsmall].
    + exfalso. rewrite !weight_app, weight_cons in Hw'. lia.
    + cbn [andb currentChunk]. rewrite weight_app, weight_cons.
      change (weight []) with 0. rewrite !length_app.
      destruct (truthy (currentChunk st));
        cbn [length str list_ascii_of_string]; lia.
Qed.

Lemma infix_refl s : infix s s.
Proof. exists [], []. rewrite app_nil_r. reflexivity. Qed.

Lemma infix_nil s : infix [] s.
Proof. exists [], s. reflexivity. Qed.

Lemma infix_app_l p s x : infix p s -> infix p (x ++ s).
Proof.
  intros (a & b & ->). exists (x ++ a), b. rewrite <- app_assoc. reflexivity.
Qed.

Lemma infix_app_r p s y : infix p s -> infix p (s ++ y).
Proof.
  intros (a & b & ->). exists a, (b ++ y). rewrite <- !app_assoc. reflexivity.
Qed.

Lemma takeWhile_dropWhile (f : ascii -> bool) s :
  s = takeWhile f s ++ dropWhile f s.
Proof.
  induction s as [|c s IH]; simpl; [reflexivity|].
  destruct (f c); simpl; [f_equal; exact IH | reflexivity].
Qed.

(** A string is its trimmed text between two margins. *)
Lemma trim_margins s : exists w1 w2, s = w1 ++ trim s ++ w2.
Proof.
  exists (takeWhile is_ws s),
         (rev (takeWhile is_ws (rev (dropWhile is_ws s)))).
  unfold trim. rewrite <- rev_app_distr, <- takeWhile_dropWhile.
  rewrite rev_involutive. apply takeWhile_dropWhile.
Qed.

(** Trimming keeps what stands inside in one piece. *)
Lemma infix_trim p s : infix p s -> infix (trim p) (trim s).
Proof.
  intros (a & b & ->).
  destruct (trim p) as [|c core] eqn:Ep; [apply infix_nil|].
  destruct (trim_margins p) as (w1 & w2 & Hp). rewrite Ep in Hp.
  assert (Hc : is_ws c = false)
    by (apply (trim_head_not_ws p); rewrite Ep; reflexivity).
  destruct (rev (c :: core)) as [|z rcore] eqn:Er.
  { apply (f_equal (@length ascii)) in Er. rewrite length_rev in Er.
    discriminate Er. }
  assert (Hz : is_ws z = false)
    by (apply (trim_last_not_ws p); rewrite Ep, Er; reflexivity).
  rewrite Hp. unfold trim.
  replace (a ++ (w1 ++ (c :: core) ++ w2) ++ b)
    with ((a ++ w1) ++ (c :: core) ++ (w2 ++ b))
    by (rewrite <- !app_assoc; reflexivity).
  destruct (dropWhile_app_keep (a ++ w1) ((c :: core) ++ w2 ++ b) c
              (core ++ w2 ++ b) eq_refl Hc) as [x' ->].
  rewrite !rev_app_distr, <- !app_assoc, Er.
  destruct (dropWhile_app_keep (rev b ++ rev w2) ((z :: rcore) ++ rev x') z
              (rcore ++ rev x') eq_refl Hz) as [y' Hy].
  rewrite <- app_assoc in Hy. rewrite Hy.
  rewrite !rev_app_distr, rev_involutive, <- Er, rev_involutive.
  exists x', (rev y'). rewrite <- app_assoc. reflexivity.
Qed.

Lemma flush_kept seen st :
  kept seen st ->
  forall p, In p seen ->
    exists c, In c (flush st) /\ infix (trim p) (text c).
Proof.
  intros K p Hp. destruct (K p Hp) as [H | (c & Hc & H)].
  - eexists. split; [unfold flush; apply in_or_app; right; left; reflexivity|].
    cbn [text]. apply infix_trim. exact H.
  - exists c. split; [unfold flush; apply in_or_app; left; exact Hc | exact H].
Qed.

Lemma step_kept seen st p : kept seen st -> kept (seen ++ [p]) (step st p).
Proof.
  intros K q Hq. apply in_app_or in Hq. unfold step.
  destruct (_ && _); cbn [chunks currentChunk].
  - destruct Hq as [Hq | [<- | []]].
    + right. exact (flush_kept seen st K q Hq).
    + left. apply infix_app_l. apply infix_refl.
  - destruct Hq as [Hq | [<- | []]].
    + destruct (K q Hq) as [H | H]; [left | right; exact H].
      apply infix_app_r. exact H.
    + left. apply infix_app_l. apply infix_app_l. apply infix_refl.
Qed.

Lemma run_kept ps : kept ps (run ps).
Proof.
  unfold run.
  assert (G : forall l seen st,
             kept seen st -> kept (seen ++ l) (fold_left step l st)).
  { induction l as [|p l IH]; intros seen st K; simpl.
    - rewrite app_nil_r. exact K.
    - replace (seen ++ p :: l) with ((seen ++ [p]) ++ l)
        by (rewrite <- app_assoc; reflexivity).
      apply IH. apply step_kept. exact K. }
  apply (G ps [] _). intros p [].
Qed.

End ChunkContent.

(** X4: a document of at most 1000 characters is never split: it gives
    exactly one chunk, which starts at 0. *)
Theorem short_document_one_chunk (d : document) :
  length (doc_content d) <= 1000 ->
  exists c, Chunker.chunkDocument d = [c] /\ Chunker.start c = 0.
Proof.
  intros Hlen.
  assert (Hq : Chunker.chunks (Chunker.run (Chunker.paragraphs (doc_content d)))
               = []).
  { unfold Chunker.run.
    apply (fold_step_quiet (Chunker.paragraphs (doc_content d)) []);
      [|reflexivity | cbn; lia].
    cbn [app]. pose proof (paragraphs_weight (doc_content d)).
    unfold Chunker.maxChunkSize. lia. }
  unfold Chunker.chunkDocument, Chunker.flush. rewrite Hq. cbn [app length].
  destruct (truthy _); cbn [Nat.ltb Nat.leb];
    eexists; split; reflexivity.
Qed.

Lemma short_document_one_chunk_witness :
  length (doc_content
            {| doc_id := str "a.md"; doc_path := str "a.md";
               doc_content := str "first" ++ ["010"; "010"]%char ++ str "second";
               doc_frontmatter := None; doc_lastModified := 0%N |}) <= 1000
  /\ exists c,
       Chunker.chunkDocument
         {| doc_id := str "a.md"; doc_path := str "a.md";
            doc_content := str "first" ++ ["010"; "010"]%char ++ str "second";
            doc_frontmatter := None; doc_lastModified := 0%N |} = [c]
       /\ Chunker.start c = 0.
Proof.
  assert (H : length (doc_content
            {| doc_id := str "a.md"; doc_path := str "a.md";
               doc_content := str "first" ++ ["010"; "010"]%char ++ str "second";
               doc_frontmatter := None; doc_lastModified := 0%N |}) <= 1000)
    by (cbn; lia).
  split; [exact H|].
  exact (short_document_one_chunk _ H).
Defined.

(** X5: no paragraph is lost or split: every paragraph of the content,
    trimmed, stands in one piece in the text of some chunk. *)
Theorem paragraph_kept_whole (d : document) (p : jstring) :
  In p (Chunker.paragraphs (doc_content d)) ->
  exists c, In c (Chunker.chunkDocument d) /\ infix (trim p) (Chunker.text c).
Proof.
  intros Hp.
  pose proof (run_kept (Chunker.paragraphs (doc_content d))) as K.
  set (st := Chunker.run (Chunker.paragraphs (doc_content d))) in *.
  assert (Hflush : exists c, In c (Chunker.flush st)
                             /\ infix (trim p) (Chunker.text c))
    by exact (flush_kept _ st K p Hp).
  unfold Chunker.chunkDocument. fold st.
  destruct (truthy (trim (Chunker.currentChunk st))) eqn:Et.
  - destruct (Chunker.flush st) as [|c0 rest] eqn:Ef.
    + destruct Hflush as (c & [] & _).
    + cbn [length Nat.ltb Nat.leb]. exact Hflush.
  - assert (Hblank : trim (Chunker.currentChunk st) = [])
      by (destruct (trim (Chunker.currentChunk st)); [reflexivity | discriminate]).
    assert (Hcase : (exists c, In c (Chunker.chunks st)
                               /\ infix (trim p) (Chunker.text c))
                    \/ trim p = []).
    { destruct (K p Hp) as [H | H]; [right | left; exact H].
      apply infix_trim in H. rewrite Hblank in H.
      destruct H as (a & b & H). symmetry in H.
      apply app_eq_nil in H. destruct H as [_ H].
      apply app_eq_nil in H. exact (proj1 H). }
    destruct (Chunker.chunks st) as [|c0 rest] eqn:Ec.
    + cbn [length Nat.ltb Nat.leb].
      destruct Hcase as [(c & [] & _) | ->].
      eexists. split; [left; reflexivity | apply infix_nil].
    + cbn [length Nat.ltb Nat.leb].
      destruct Hcase as [H | ->]; [exact H|].
      exists c0. split; [left; reflexivity | apply infix_nil].
Qed.

Lemma paragraph_kept_whole_witness :
  In (repeat "b"%char 950) (Chunker.paragraphs (doc_content seam_example))
  /\ exists c,
       In c (Chunker.chunkDocument seam_example)
       /\ infix (trim (repeat "b"%char 950)) (Chunker.text c).
Proof.
  assert (H : In (repeat "b"%char 950)
                 (Chunker.paragraphs (doc_content seam_example)))
    by (vm_compute; right; left; reflexivity).
  split; [exact H|].
  exact (paragraph_kept_whole seam_example (repeat "b"%char 950) H).
Defined.

(* ------------------------------------------------------------------ *)
(** ** Title and tags *)

Section MetaFacts.

Import Meta.

Lemma hash_sign_eq c : hash_sign c = true -> c = "#"%char.
Proof.
  unfold hash_sign, code. intros H. apply N.eqb_eq in H.
  rewrite <- (ascii_N_embedding c), H. reflexivity.
Qed.

Lemma takeWhile_all (f : ascii -> bool) s : forallb f (takeWhile f s) = true.
Proof.
  induction s as [|c s IH]; simpl; [reflexivity|].
  destruct (f c) eqn:E; simpl; [rewrite E; exact IH | reflexivity].
Qed.

Lemma hashtags_sound s :
  forall skip t,
    In t (hashtags s skip) ->
    t <> [] /\ forallb is_tag_char t = true /\ infix ("#"%char :: t) s.
Proof.
  induction s as [|c r IH]; intros skip t Ht; [destruct Ht|].
  assert (Hrest : forall k, In t (hashtags r k) ->
            t <> [] /\ forallb is_tag_char t = true
            /\ infix ("#"%char :: t) (c :: r)).
  { intros k Hk. destruct (IH k t Hk) as (H1 & H2 & H3).
    split; [exact H1|]. split; [exact H2|].
    apply (infix_app_l _ r [c]). exact H3. }
  destruct skip as [|k]; cbn [hashtags] in Ht; [|exact (Hrest k Ht)].
  destruct (hash_sign c) eqn:Eh; [|exact (Hrest 0 Ht)].
  destruct (takeWhile is_tag_char r) as [|x run] eqn:Er; [exact (Hrest 0 Ht)|].
  destruct Ht as [<- | Ht]; [|exact (Hrest _ Ht)].
  split; [discriminate|]. split; [rewrite <- Er; apply takeWhile_all|].
  exists [], (dropWhile is_tag_char r).
  rewrite (hash_sign_eq c Eh).
  change ("#"%char :: r = "#"%char :: (x :: run) ++ dropWhile is_tag_char r).
  f_equal. rewrite <- Er. apply takeWhile_dropWhile.
Qed.

Lemma heading_sound line m :
  heading line = Some m ->
  exists w,
    line = "#"%char :: w ++ m
    /\ w <> [] /\ forallb is_ws w = true
    /\ m <> [] /\ existsb is_line_terminator m = false.
Proof.
  unfold heading. destruct line as [|c rest]; [discriminate|].
  destruct (hash_sign c) eqn:Eh; [|discriminate].
  rewrite (hash_sign_eq c Eh).
  pose proof (takeWhile_dropWhile is_ws rest) as Hsplit.
  pose proof (takeWhile_all is_ws rest) as Hall.
  destruct (takeWhile is_ws rest) as [|x w] eqn:Ew; [discriminate|].
  destruct (dropWhile is_ws rest) as [|y tail] eqn:Et.
  - destruct (rev (x :: w)) as [|l [|l2 rw]] eqn:Er; try discriminate.
    destruct (is_line_terminator l) eqn:El; [discriminate|].
    intros H. injection H as <-.
    assert (Exw : x :: w = rev (l2 :: rw) ++ [l]).
    { rewrite <- (rev_involutive (x :: w)), Er. reflexivity. }
    exists (rev (l2 :: rw)).
    split; [rewrite Hsplit, app_nil_r, Exw; reflexivity|].
    split.
    { intros E. apply (f_equal (@length ascii)) in E.
      rewrite length_rev in E. discriminate E. }
    split.
    { rewrite Exw, forallb_app in Hall. apply andb_prop in Hall.
      exact (proj1 Hall). }
    split; [discriminate|]. cbn. rewrite El. reflexivity.
  - destruct (existsb is_line_terminator (y :: tail)) eqn:El; [discriminate|].
    intros H. injection H as <-.
    exists (x :: w).
    split; [rewrite Hsplit; reflexivity|].
    split; [discriminate|]. split; [exact Hall|].
    split; [discriminate | exact El].
Qed.

Lemma split_char_go_not_nil sep s : forall cur, split_char_go sep s cur <> [].
Proof.
  induction s as [|c r IH]; intros cur; cbn [split_char_go]; [discriminate|].
  destruct (Ascii.eqb c sep); [discriminate | apply IH].
Qed.

Lemma last_cons_more {A} (x : A) (l : list A) (d : A) :
  l <> [] -> last (x :: l) d = last l d.
Proof. destruct l; [contradiction | reflexivity]. Qed.

Lemma split_char_go_last sep s :
  forall cur,
    exists pre,
      rev cur ++ s = pre ++ last (split_char_go sep s cur) []
      /\ (pre = [] \/ exists pre', pre = pre' ++ [sep])
      /\ (~ In sep cur -> ~ In sep (last (split_char_go sep s cur) [])).
Proof.
  induction s as [|c r IH]; intros cur.
  - exists []. cbn. rewrite app_nil_r. split; [reflexivity|].
    split; [left; reflexivity|]. intros H Hin. apply in_rev in Hin. exact (H Hin).
  - cbn [split_char_go]. destruct (Ascii.eqb c sep) eqn:Ec.
    + apply Ascii.eqb_eq in Ec. subst c.
      destruct (IH []) as (pre & E & Hshape & Hno). cbn [rev app] in E.
      exists ((rev cur ++ [sep]) ++ pre).
      rewrite (last_cons_more _ _ _ (split_char_go_not_nil sep r [])).
      split; [rewrite <- !app_assoc; cbn [app]; rewrite <- E; reflexivity|].
      split.
      * right. destruct Hshape as [-> | (pre' & ->)].
        -- exists (rev cur). rewrite app_nil_r. reflexivity.
        -- exists ((rev cur ++ [sep]) ++ pre'). rewrite <- !app_assoc.
           reflexivity.
      * intros _. apply Hno. intros [].
    + destruct (IH (c :: cur)) as (pre & E & Hshape & Hno).
      exists pre. split; [cbn [rev] in E; rewrite <- app_assoc in E; exact E|].
      split; [exact Hshape|].
      intros Hcur. apply Hno. intros [<- | Hin]; [|exact (Hcur Hin)].
      rewrite Ascii.eqb_refl in Ec. discriminate.
Qed.

Lemma first_heading_none lines :
  Forall (fun l => heading l = None) lines -> first_heading lines = None.
Proof.
  induction 1 as [|l lines Hl _ IH]; simpl; [reflexivity|].
  rewrite Hl. exact IH.
Qed.

Lemma untitled_falls_through d :
  untitled d ->
  extractTitle d
  = match first_heading (split_char "010"%char (doc_content d)) with
    | Some t => t
    | None => last (split_char "/"%char (strip_md (doc_path d))) []
    end.
Proof.
  unfold untitled, extractTitle. destruct (doc_frontmatter d) as [fm|];
    [|reflexivity].
  destruct (fm_title fm) as [t|]; [|reflexivity].
  intros ->. reflexivity.
Qed.

End MetaFacts.

(** X6: the tags of a document are a set: no tag twice, and a tag is in the
    result exactly when the front matter declares it or the content has it
    as a hashtag; a hashtag tag is not empty, is made of letters, digits,
    underscores and hyphens, and stands in the content behind a hash
    sign. *)
Theorem tags_are_a_set (d : document) :
  NoDup (Meta.extractTags d)
  /\ (forall t,
        In t (Meta.extractTags d) <->
        In t (declared_tags d) \/ In t (Meta.hashtags (doc_content d) 0))
  /\ forall t,
       In t (Meta.hashtags (doc_content d) 0) ->
       t <> [] /\ forallb Meta.is_tag_char t = true
       /\ infix ("#"%char :: t) (doc_content d).
Proof.
  split; [apply uniq_go_NoDup|]. split.
  - intros t. unfold Meta.extractTags. rewrite in_uniq, in_app_iff.
    reflexivity.
  - intros t Ht. exact (hashtags_sound (doc_content d) 0 t Ht).
Qed.

Lemma tags_are_a_set_witness :
  In (str "todo")
     (Meta.hashtags (doc_content
        {| doc_id := str "a.md"; doc_path := str "a.md";
           doc_content := str "call #todo #todo";
           doc_frontmatter := None; doc_lastModified := 0%N |}) 0)
  /\ str "todo" <> []
  /\ Meta.extractTags
       {| doc_id := str "a.md"; doc_path := str "a.md";
          doc_content := str "call #todo #todo";
          doc_frontmatter := None; doc_lastModified := 0%N |}
     = [str "todo"].
Proof.
  assert (H : In (str "todo")
     (Meta.hashtags (doc_content
        {| doc_id := str "a.md"; doc_path := str "a.md";
           doc_content := str "call #todo #todo";
           doc_frontmatter := None; doc_lastModified := 0%N |}) 0))
    by (left; reflexivity).
  split; [exact H|].
  split; [|reflexivity].
  exact (proj1 (proj2 (proj2 (tags_are_a_set _)) (str "todo") H)).
Defined.

(** X7: a line gives the title only if it is a hash sign, then whitespace,
    then the text: a line that begins with two hash signs, or has no
    whitespace behind the hash sign, or nothing behind the whitespace, is
    no heading.  The title of a document without a front-matter title
    whose first heading line captures [m] is [m] trimmed. *)
Theorem title_from_heading_shape (d : document) (before : list jstring)
  (line : jstring) (after : list jstring) (m : jstring) :
  untitled d ->
  split_char "010"%char (doc_content d) = before ++ line :: after ->
  Forall (fun l => Meta.heading l = None) before ->
  Meta.heading line = Some m ->
  Meta.extractTitle d = trim m
  /\ exists w,
       line = "#"%char :: w ++ m
       /\ w <> [] /\ forallb is_ws w = true
       /\ m <> [] /\ existsb is_line_terminator m = false.
Proof.
  intros Hu Hlines Hbefore Hm. split; [|exact (heading_sound line m Hm)].
  rewrite (untitled_falls_through d Hu), Hlines.
  assert (G : Meta.first_heading (before ++ line :: after) = Some (trim m)).
  { clear Hlines. induction Hbefore as [|l before Hl _ IH]; simpl.
    - rewrite Hm. reflexivity.
    - rewrite Hl. exact IH. }
  rewrite G. reflexivity.
Qed.

Lemma title_from_heading_shape_witness :
  untitled
    {| doc_id := str "a.md"; doc_path := str "a.md";
       doc_content := str "## Plan" ++ ["010"%char] ++ str "#  Launch ";
       doc_frontmatter := None; doc_lastModified := 0%N |}
  /\ Meta.heading (str "## Plan") = None
  /\ Meta.heading (str "#  Launch ") = Some (str "Launch ")
  /\ Meta.extractTitle
       {| doc_id := str "a.md"; doc_path := str "a.md";
          doc_content := str "## Plan" ++ ["010"%char] ++ str "#  Launch ";
          doc_frontmatter := None; doc_lastModified := 0%N |}
     = trim (str "Launch ").
Proof.
  assert (Hu : untitled
    {| doc_id := str "a.md"; doc_path := str "a.md";
       doc_content := str "## Plan" ++ ["010"%char] ++ str "#  Launch ";
       doc_frontmatter := None; doc_lastModified := 0%N |}) by exact I.
  assert (H1 : Meta.heading (str "## Plan") = None) by reflexivity.
  assert (H2 : Meta.heading (str "#  Launch ") = Some (str "Launch "))
    by reflexivity.
  split; [exact Hu|]. split; [exact H1|]. split; [exact H2|].
  exact (proj1 (title_from_heading_shape _ [str "## Plan"] (str "#  Launch ")
                  [] (str "Launch ") Hu eq_refl
                  (Forall_cons _ H1 (Forall_nil _)) H2)).
Defined.

(** X8: when neither the front matter nor a heading gives a title, the
    title is the end of the path, without a final ".md", behind its last
    slash: it has no slash in it, and what stands before it in the path is
    empty or ends with a slash. *)
Theorem title_is_last_segment (d : document) :
  untitled d ->
  Forall (fun l => Meta.heading l = None)
         (split_char "010"%char (doc_content d)) ->
  ~ In "/"%char (Meta.extractTitle d)
  /\ exists pre,
       Meta.strip_md (doc_path d) = pre ++ Meta.extractTitle d
       /\ (pre = [] \/ exists pre', pre = pre' ++ ["/"%char]).
Proof.
  intros Hu Hnone.
  rewrite (untitled_falls_through d Hu), (first_heading_none _ Hnone).
  destruct (split_char_go_last "/"%char (Meta.strip_md (doc_path d)) [])
    as (pre & E & Hshape & Hno).
  split; [apply Hno; intros []|].
  exists pre. split; [exact E | exact Hshape].
Qed.

Lemma title_is_last_segment_witness :
  untitled
    {| doc_id := str "x"; doc_path := str "daily/2025-07-22.md";
       doc_content := str "no heading here";
       doc_frontmatter := None; doc_lastModified := 0%N |}
  /\ Meta.extractTitle
       {| doc_id := str "x"; doc_path := str "daily/2025-07-22.md";
          doc_content := str "no heading here";
          doc_frontmatter := None; doc_lastModified := 0%N |}
     = str "2025-07-22"
  /\ ~ In "/"%char
       (Meta.extractTitle
          {| doc_id := str "x"; doc_path := str "daily/2025-07-22.md";
             doc_content := str "no heading here";
             doc_frontmatter := None; doc_lastModified := 0%N |}).
Proof.
  assert (Hu : untitled
    {| doc_id := str "x"; doc_path := str "daily/2025-07-22.md";
       doc_content := str "no heading here";
       doc_frontmatter := None; doc_lastModified := 0%N |}) by exact I.
  assert (Hn : Forall (fun l => Meta.heading l = None)
                 (split_char "010"%char (doc_content
    {| doc_id := str "x"; doc_path := str "daily/2025-07-22.md";
       doc_content := str "no heading here";
       doc_frontmatter := None; doc_lastModified := 0%N |})))
    by (repeat constructor).
  split; [exact Hu|]. split; [reflexivity|].
  exact (proj1 (title_is_last_segment _ Hu Hn)).
Defined.

(* ------------------------------------------------------------------ *)
(** ** PointIdentity: the hashed string *)

(** X9: the string that [generatePointId] hashes tells the path and the
    index apart: two pairs of a path and an index give the same string only
    if they are the same pair, so two points can only share an id by a
    collision of the digest. *)
Theorem point_id_input_injective (filePath filePath' : jstring)
  (chunkIndex chunkIndex' : nat) :
  generatePointId filePath chunkIndex
  = MD5.md5_hex (point_id_input filePath chunkIndex)
  /\ (point_id_input filePath chunkIndex
      = point_id_input filePath' chunkIndex' ->
      filePath = filePath' /\ chunkIndex = chunkIndex').
Proof.
  split; [reflexivity|].
  unfold point_id_input. intros E.
  apply (f_equal (@rev ascii)) in E.
  rewrite !rev_app_distr in E.
  change (rev (str "_chunk_")) with ("_"%char :: str "knuhc_") in E.
  rewrite <- !app_assoc in E. cbn [app] in E.
  apply cut_at_last in E.
  - destruct E as [E1 E2]. apply app_inv_head in E2.
    apply (f_equal (@rev ascii)) in E1, E2.
    rewrite !rev_involutive in E1, E2.
    split; [exact E2 | apply of_nat_inj; exact E1].
  - rewrite <- in_rev. apply of_nat_no_underscore.
  - rewrite <- in_rev. apply of_nat_no_underscore.
Qed.

Lemma point_id_input_injective_witness :
  point_id_input (str "a_chunk_1.md") 2 = point_id_input (str "a_chunk_1.md") 2
  /\ point_id_input (str "a_chunk_1.md") 2 = str "a_chunk_1.md_chunk_2"
  /\ str "a_chunk_1.md" = str "a_chunk_1.md" /\ 2 = 2.
Proof.
  split; [reflexivity|]. split; [reflexivity|].
  exact (proj2 (point_id_input_injective (str "a_chunk_1.md")
                  (str "a_chunk_1.md") 2 2) eq_refl).
Defined.

(* ------------------------------------------------------------------ *)
(** ** QueryExpander: the variants *)

Section VariantFacts.

Import QueryExpander.

Lemma day_then_boundary_digits r day :
  day_then_boundary r = Some day ->
  (length day = 1 \/ length day = 2) /\ forallb is_digit day = true.
Proof.
  unfold day_then_boundary. destruct r as [|d1 [|d2 r2]]; [discriminate| |].
  - destruct (is_digit d1) eqn:E1; cbn [andb]; [|discriminate].
    destruct (suffix_then_boundary d1 []); [|discriminate].
    intros H. injection H as <-. cbn. rewrite E1. auto.
  - destruct (is_digit d1) eqn:E1; cbn [andb]; [|discriminate].
    destruct (is_digit d2) eqn:E2; cbn [andb].
    + destruct (suffix_then_boundary d2 r2).
      * intros H. injection H as <-. cbn. rewrite E1, E2. auto.
      * destruct (suffix_then_boundary d1 (d2 :: r2)); [|discriminate].
        intros H. injection H as <-. cbn. rewrite E1. auto.
    + destruct (suffix_then_boundary d1 (d2 :: r2)); [|discriminate].
      intros H. injection H as <-. cbn. rewrite E1. auto.
Qed.

Lemma month_code_two_digits name code :
  In (name, code) monthMap ->
  month_code name = code
  /\ length code = 2 /\ forallb is_digit code = true.
Proof.
  intros H. cbn in H.
  repeat (destruct H as [H | H];
          [injection H as <- <-; repeat split; reflexivity|]).
  destruct H.
Qed.

Lemma match_date_here_shape prev s m d :
  match_date_here prev s = Some (m, d) ->
  (exists code, In (m, code) monthMap)
  /\ (length d = 1 \/ length d = 2) /\ forallb is_digit d = true.
Proof.
  unfold match_date_here.
  destruct (find (fun m0 => startsWith s (fst m0)) monthMap)
    as [[name code]|] eqn:Ef; [|discriminate].
  apply find_some in Ef. destruct Ef as [Hin _].
  destruct (word_boundary prev (hd_error s)); [|discriminate].
  destruct (takeWhile is_ws (skipn (length name) s)); [discriminate|].
  destruct (day_then_boundary _) as [day|] eqn:Ed; [|discriminate].
  intros H. injection H as <- <-.
  split; [exists code; exact Hin|].
  exact (day_then_boundary_digits _ _ Ed).
Qed.

Lemma find_date_shape s :
  forall prev m d,
    find_date prev s = Some (m, d) ->
    (exists code, In (m, code) monthMap)
    /\ (length d = 1 \/ length d = 2) /\ forallb is_digit d = true.
Proof.
  induction s as [|c r IH]; intros prev m d; cbn [find_date].
  - destruct (match_date_here prev []) as [[m0 d0]|] eqn:E; [|discriminate].
    intros H. injection H as <- <-. exact (match_date_here_shape _ _ _ _ E).
  - destruct (match_date_here prev (c :: r)) as [[m0 d0]|] eqn:E.
    + intros H. injection H as <- <-. exact (match_date_here_shape _ _ _ _ E).
    + apply IH.
Qed.

Lemma padStart2_length d :
  length d = 1 \/ length d = 2 -> length (padStart2 d) = 2.
Proof.
  destruct d as [|a [|b [|c d]]]; cbn; intros [H | H];
    try discriminate H; reflexivity.
Qed.

Lemma padStart2_digits d :
  forallb is_digit d = true -> forallb is_digit (padStart2 d) = true.
Proof.
  destruct d as [|a [|b d]]; cbn; intros H; try exact H; try reflexivity.
Qed.

Lemma includes_nil s : includes s [] = true.
Proof. destruct s; reflexivity. Qed.

End VariantFacts.

(** X10: [expandQuery] always returns the query itself as its first
    variant, so the result is never empty, and no variant twice. *)
Theorem expand_query_first_and_distinct (year : nat) (query : jstring) :
  (exists rest, QueryExpander.expandQuery year query = query :: rest)
  /\ NoDup (QueryExpander.expandQuery year query).
Proof.
  split; [apply expandQuery_head | apply expandQuery_NoDup].
Qed.

(** X11: whenever the date pattern matches, the month is one of the twelve
    names of the table, so its code is two digits and never [undefined],
    and the day is one or two digits, two once padded: the variant MM-DD
    has five characters and is in the result. *)
Theorem date_variants_well_formed (year : nat) (query m d : jstring) :
  QueryExpander.find_date None (toLowerCase query) = Some (m, d) ->
  let month := QueryExpander.month_code m in
  let day := padStart2 d in
  In m (map fst QueryExpander.monthMap)
  /\ length month = 2 /\ forallb is_digit month = true
  /\ length day = 2 /\ forallb is_digit day = true
  /\ length (month ++ str "-" ++ day) = 5
  /\ In (month ++ str "-" ++ day) (QueryExpander.expandQuery year query)
  /\ In (of_nat year ++ str "-" ++ month ++ str "-" ++ day)
        (QueryExpander.expandQuery year query).
Proof.
  intros H month day.
  destruct (find_date_shape _ _ _ _ H) as ((code & Hin) & Hlen & Hdig).
  destruct (month_code_two_digits m code Hin) as (Hcode & Hl & Hd).
  unfold month, day. rewrite Hcode.
  pose proof (padStart2_length d Hlen) as Hpl.
  split; [apply (in_map fst) in Hin; exact Hin|].
  split; [exact Hl|]. split; [exact Hd|]. split; [exact Hpl|].
  split; [apply padStart2_digits; exact Hdig|].
  split; [rewrite !length_app, Hl, Hpl; reflexivity|].
  unfold QueryExpander.expandQuery. rewrite !in_uniq.
  unfold QueryExpander.candidates. rewrite H.
  unfold QueryExpander.dateVariations. cbn [fst snd]. rewrite Hcode.
  split.
  - apply in_or_app. right. apply in_or_app. left. apply in_or_app. left.
    left. reflexivity.
  - apply in_or_app. right. apply in_or_app. left. apply in_or_app. left.
    right. left. reflexivity.
Qed.

Lemma date_variants_well_formed_witness :
  QueryExpander.find_date None (toLowerCase (str "Notes of March 3rd"))
  = Some (str "march", str "3")
  /\ In (str "03-03") (QueryExpander.expandQuery 2025 (str "Notes of March 3rd"))
  /\ In (str "2025-03-03")
        (QueryExpander.expandQuery 2025 (str "Notes of March 3rd")).
Proof.
  assert (H : QueryExpander.find_date None
                (toLowerCase (str "Notes of March 3rd"))
              = Some (str "march", str "3")) by (vm_compute; reflexivity).
  split; [exact H|].
  exact (proj2 (proj2 (proj2 (proj2 (proj2 (proj2
           (date_variants_well_formed 2025 _ _ _ H))))))).
Defined.

(** X12: a query without a date and without the words meeting, daily and
    appointment has no other variants than itself and its own words, in
    lower case, that are longer than two characters and are no stop
    words. *)
Theorem plain_query_variants (year : nat) (query v : jstring) :
  QueryExpander.find_date None (toLowerCase query) = None ->
  includes (toLowerCase query) (str "meeting") = false ->
  includes (toLowerCase query) (str "daily") = false ->
  includes (toLowerCase query) (str "appointment") = false ->
  (In v (QueryExpander.expandQuery year query) <->
   v = query
   \/ (In v (split_ws (toLowerCase query))
       /\ 2 < length v /\ ~ In v QueryExpander.stopWords)).
Proof.
  intros Hd Hm Hy Ha.
  unfold QueryExpander.expandQuery. rewrite in_uniq.
  unfold QueryExpander.candidates. rewrite Hd, Hm, Hy, Ha.
  cbn [app]. rewrite !app_nil_r. cbn [In].
  rewrite filter_In, andb_true_iff, Nat.ltb_lt, negb_true_iff.
  split.
  - intros [<- | (Hin & Hlen & Hstop)]; [left; reflexivity|].
    right. split; [exact Hin|]. split; [exact Hlen|].
    intros Hs. apply existsb_string_eqb in Hs. congruence.
  - intros [-> | (Hin & Hlen & Hstop)]; [left; reflexivity|].
    right. split; [exact Hin|]. split; [exact Hlen|].
    destruct (existsb _ _) eqn:E; [|reflexivity].
    apply existsb_string_eqb in E. contradiction.
Qed.

Lemma plain_query_variants_witness :
  QueryExpander.find_date None (toLowerCase (str "the Garden plan")) = None
  /\ includes (toLowerCase (str "the Garden plan")) (str "meeting") = false
  /\ includes (toLowerCase (str "the Garden plan")) (str "daily") = false
  /\ includes (toLowerCase (str "the Garden plan")) (str "appointment") = false
  /\ (In (str "garden") (QueryExpander.expandQuery 2025 (str "the Garden plan"))
      <-> str "garden" = str "the Garden plan"
          \/ (In (str "garden") (split_ws (toLowerCase (str "the Garden plan")))
              /\ 2 < length (str "garden")
              /\ ~ In (str "garden") QueryExpander.stopWords)).
Proof.
  assert (H1 : QueryExpander.find_date None
                 (toLowerCase (str "the Garden plan")) = None)
    by (vm_compute; reflexivity).
  assert (H2 : includes (toLowerCase (str "the Garden plan")) (str "meeting")
               = false) by (vm_compute; reflexivity).
  assert (H3 : includes (toLowerCase (str "the Garden plan")) (str "daily")
               = false) by (vm_compute; reflexivity).
  assert (H4 : includes (toLowerCase (str "the Garden plan"))
                 (str "appointment") = false) by (vm_compute; reflexivity).
  repeat (split; [assumption|]).
  exact (plain_query_variants 2025 (str "the Garden plan") (str "garden")
           H1 H2 H3 H4).
Defined.

(* ------------------------------------------------------------------ *)
(** ** Lexical scoring: bounds and edges *)

(** X13: [calculateTextScore] always lies between its base 0.5 and its
    cap 1; the score that the lexical leg files is that value or that
    value plus the boost 0.2, so it lies between 0.5 and 1.2. *)
Theorem text_score_bounds (query : jstring) (p : payload) :
  (1 # 2 <= Scoring.calculateTextScore query p)%Q
  /\ (Scoring.calculateTextScore query p <= 1)%Q
  /\ (1 # 2 <= Scoring.textScore query p)%Q
  /\ (Scoring.textScore query p <= 12 # 10)%Q
  /\ (Scoring.textScore query p = Scoring.calculateTextScore query p
      \/ Scoring.textScore query p
         = (Scoring.calculateTextScore query p + (2 # 10))%Q).
Proof.
  destruct (calculateTextScore_range query p) as [H1 H2].
  destruct (textScore_range query p) as [H3 H4].
  repeat (split; [assumption|]).
  unfold Scoring.textScore, Scoring.bonus.
  destruct (includes _ _); [right | left]; reflexivity.
Qed.

(** X14: for the empty query every point gets the full score: the empty
    string is found in every field and at the start of every text, so
    [calculateTextScore] returns its cap 1 and the lexical leg files 1.2,
    whatever the payload. *)
Theorem empty_query_scores_cap (p : payload) :
  (Scoring.calculateTextScore [] p == 1)%Q
  /\ (Scoring.textScore [] p == 12 # 10)%Q.
Proof.
  assert (H : Scoring.calculateTextScore [] p = Scoring.min
            ((((1 # 2) + (3 # 10)) + (4 # 10) + (2 # 10)) + (2 # 10))%Q 1%Q).
  { unfold Scoring.calculateTextScore. cbn [toLowerCase map].
    rewrite !includes_nil.
    change (split_ws []) with [@nil ascii]. cbn [fold_left].
    unfold Scoring.word_bonus. cbn [length Nat.ltb Nat.leb].
    assert (Hs : forall s, startsWith s [] = true) by (intros []; reflexivity).
    rewrite Hs. reflexivity. }
  unfold Scoring.textScore. cbn [toLowerCase map]. rewrite includes_nil, H.
  split; vm_compute; reflexivity.
Qed.

(* ------------------------------------------------------------------ *)
(** ** HybridRetriever: the requests of a search *)

Section SearchRequests.

Variable env : services.

Lemma semantic_leg_requests limit m q h :
  exists evs,
    snd (Engine.semantic_leg env limit m q h) = h ++ evs
    /\ Forall semantic_request evs /\ length evs <= 2.
Proof.
  unfold Engine.semantic_leg, bind. rewrite generateEmbedding_run.
  destruct (ollama_embeddings env h q) as [e | v].
  - eexists. split; [reflexivity|]. split; [repeat constructor | cbn; lia].
  - unfold request, ret.
    destruct (qdrant_search env _ v (limit * 2)) as [e | res]; cbn [snd];
      rewrite <- app_assoc; eexists;
      (split; [reflexivity|]); (split; [repeat constructor | cbn; lia]).
Qed.

Lemma semantic_legs_requests limit qs :
  forall m h,
    exists evs,
      snd (for_of qs (Engine.semantic_leg env limit) m h) = h ++ evs
      /\ Forall semantic_request evs /\ length evs <= 2 * length qs.
Proof.
  induction qs as [|q qs IH]; intros m h.
  - exists []. cbn. rewrite app_nil_r. split; [reflexivity|].
    split; [constructor | lia].
  - cbn [for_of]. unfold bind.
    destruct (semantic_leg_requests limit m q h) as (evs & E & Hs & Hl).
    destruct (Engine.semantic_leg env limit m q h) as [[e | m1] h1];
      cbn [snd] in E; subst h1.
    + exists evs. split; [reflexivity|]. split; [exact Hs | cbn [length]; lia].
    + destruct (IH m1 (h ++ evs)) as (evs' & E' & Hs' & Hl').
      exists (evs ++ evs'). rewrite E', app_assoc.
      split; [reflexivity|]. split; [apply Forall_app; split; assumption|].
      rewrite length_app. cbn [length]. lia.
Qed.

Lemma full_text_legs_requests limit qs :
  forall m h,
    exists evs,
      snd (Engine.addFullTextResults env qs m limit h) = h ++ evs
      /\ Forall scroll_request evs /\ length evs <= length qs.
Proof.
  induction qs as [|q qs IH]; intros m h.
  - exists []. cbn. rewrite app_nil_r. split; [reflexivity|].
    split; [constructor | lia].
  - cbn [Engine.addFullTextResults].
    unfold Engine.full_text_leg, bind, request, ret.
    destruct (qdrant_scroll env h q (limit * 2)) as [e | res].
    + eexists. split; [reflexivity|].
      split; [repeat constructor | cbn; lia].
    + match goal with
      | |- context [Engine.addFullTextResults env qs ?m1 limit ?h1] =>
          destruct (IH m1 h1) as (evs' & E' & Hs' & Hl')
      end.
      rewrite E', <- app_assoc. eexists. split; [reflexivity|].
      split; [constructor; [exact I | exact Hs'] | cbn [length app]; lia].
Qed.

End SearchRequests.

(** X15: the requests of a search come in two phases: first the embedding
    and similarity requests of all the variants, at most two per variant,
    then the scrolls, at most one per variant.  A search never asks the
    store to upsert or to delete. *)
Theorem search_request_phases (env : services) (query : jstring)
  (limit : nat) (h : history) :
  exists sem lex,
    snd (Engine.search env query limit h) = h ++ sem ++ lex
    /\ Forall semantic_request sem
    /\ Forall scroll_request lex
    /\ length sem
       <= 2 * length (QueryExpander.expandQuery (getFullYear env) query)
    /\ length lex
       <= length (QueryExpander.expandQuery (getFullYear env) query)
    /\ Forall (fun ev => ~ write_request ev) (sem ++ lex).
Proof.
  set (qs := QueryExpander.expandQuery (getFullYear env) query).
  assert (G : exists sem lex,
             snd (Engine.search env query limit h) = h ++ sem ++ lex
             /\ Forall semantic_request sem /\ Forall scroll_request lex
             /\ length sem <= 2 * length qs /\ length lex <= length qs).
  { unfold Engine.search, try_catch, bind. fold qs.
    destruct (semantic_legs_requests env limit qs [] h) as (sem & E & Hs & Hl).
    destruct (for_of qs (Engine.semantic_leg env limit) [] h) as [[e | m1] h1];
      cbn [snd] in E; subst h1.
    - exists sem, []. rewrite app_nil_r. cbn [throw snd].
      repeat split; try assumption; [constructor | cbn; lia].
    - destruct (full_text_legs_requests env limit qs m1 (h ++ sem))
        as (lex & E' & Hs' & Hl').
      destruct (Engine.addFullTextResults env qs m1 limit (h ++ sem))
        as [m2 h2]; cbn [snd] in E'; subst h2.
      exists sem, lex. cbn [ret snd]. rewrite <- app_assoc.
      repeat split; assumption. }
  destruct G as (sem & lex & E & Hs & Hx & Hl & Hl').
  exists sem, lex. repeat (split; [assumption|]).
  apply Forall_app. split.
  - apply (Forall_impl _ (P := semantic_request)); [|exact Hs].
    intros [] H1 H2; cbn in *; contradiction.
  - apply (Forall_impl _ (P := scroll_request)); [|exact Hx].
    intros [] H1 H2; cbn in *; contradiction.
Qed.

(** X16: a failure of the semantic leg of the first variant ends the
    search with that error: after the one embedding request when the
    embedding fails, after the embedding and the similarity request when
    the store fails; no scroll is attempted. *)
Theorem search_aborts_on_semantic_failure (env : services) (query : jstring)
  (limit : nat) (h : history) (e : error) :
  (ollama_embeddings env h query = inl e ->
   Engine.search env query limit h
   = (inl e, h ++ [EvEmbeddings query (inl e)]))
  /\ (forall v,
        ollama_embeddings env h query = inr v ->
        qdrant_search env (h ++ [EvEmbeddings query (inr v)]) v (limit * 2)
        = inl e ->
        Engine.search env query limit h
        = (inl e, h ++ [EvEmbeddings query (inr v);
                        EvSearch v (limit * 2) (inl e)])).
Proof.
  split.
  - intros He. unfold Engine.search, try_catch, bind.
    destruct (expandQuery_head (getFullYear env) query) as [rest ->].
    cbn [for_of]. unfold bind, Engine.semantic_leg, bind.
    rewrite generateEmbedding_run, He. reflexivity.
  - intros v Hv He. unfold Engine.search, try_catch, bind.
    destruct (expandQuery_head (getFullYear env) query) as [rest ->].
    cbn [for_of]. unfold bind, Engine.semantic_leg, bind.
    rewrite generateEmbedding_run, Hv. unfold request. rewrite He.
    cbn [throw]. rewrite <- app_assoc. reflexivity.
Qed.

Lemma search_aborts_on_semantic_failure_witness :
  ollama_embeddings offline_services [] (str "launch")
  = inl (Error (str "connect ECONNREFUSED"))
  /\ Engine.search offline_services (str "launch") 5 []
     = (inl (Error (str "connect ECONNREFUSED")),
        [] ++ [EvEmbeddings (str "launch")
                 (inl (Error (str "connect ECONNREFUSED")))])
  /\ ollama_embeddings no_store_services [] (str "launch") = inr [1%Q]
  /\ qdrant_search no_store_services
       ([] ++ [EvEmbeddings (str "launch") (inr [1%Q])]) [1%Q] (5 * 2)
     = inl (Error (str "Service Unavailable"))
  /\ Engine.search no_store_services (str "launch") 5 []
     = (inl (Error (str "Service Unavailable")),
        [] ++ [EvEmbeddings (str "launch") (inr [1%Q]);
               EvSearch [1%Q] (5 * 2)
                 (inl (Error (str "Service Unavailable")))]).
Proof.
  split; [reflexivity|].
  split.
  { exact (proj1 (search_aborts_on_semantic_failure offline_services
                    (str "launch") 5 []
                    (Error (str "connect ECONNREFUSED"))) eq_refl). }
  split; [reflexivity|]. split; [reflexivity|].
  exact (proj2 (search_aborts_on_semantic_failure no_store_services
                  (str "launch") 5 []
                  (Error (str "Service Unavailable")))
               [1%Q] eq_refl eq_refl).
Defined.

(* ------------------------------------------------------------------ *)
(** ** HybridRetriever: what the accumulator holds *)

Section AccumulatorFacts.

Variable env : services.

Lemma dominates_refl m : dominates m m.
Proof. intros key old H. exists old. split; [exact H | apply Qle_refl]. Qed.

Lemma dominates_trans m1 m2 m3 :
  dominates m2 m1 -> dominates m3 m2 -> dominates m3 m1.
Proof.
  intros H12 H23 key old H.
  destruct (H12 key old H) as (mid & Hmid & L1).
  destruct (H23 key mid Hmid) as (new & Hnew & L2).
  exists new. split; [exact Hnew | exact (Qle_trans _ _ _ L1 L2)].
Qed.

Lemma keep_best_dominates m c : dominates (keep_best m c) m.
Proof.
  intros key old H. unfold keep_best, ResultMap.has.
  destruct (list_eq_dec ascii_dec key (result_key (hit_payload c)))
    as [-> | Hne].
  - rewrite H. cbn [negb orb].
    destruct (Scoring.ltb (score old) (score c)) eqn:L.
    + exists c. split; [apply get_set_same|].
      apply ltb_lt in L. apply Qlt_le_weak. exact L.
    + exists old. split; [exact H | apply Qle_refl].
  - destruct (negb _ || _).
    + exists old. split; [|apply Qle_refl].
      rewrite get_set_other; [exact H | exact Hne].
    + exists old. split; [exact H | apply Qle_refl].
Qed.

(** After its turn a candidate is matched or beaten under its key. *)
Lemma keep_best_covers m c :
  exists best,
    ResultMap.get (keep_best m c) (result_key (hit_payload c)) = Some best
    /\ (score c <= score best)%Q.
Proof.
  unfold keep_best, ResultMap.has.
  destruct (ResultMap.get m (result_key (hit_payload c))) as [old|] eqn:G;
    cbn [negb orb].
  - destruct (Scoring.ltb (score old) (score c)) eqn:L.
    + exists c. split; [apply get_set_same | apply Qle_refl].
    + exists old. split; [exact G|]. apply ltb_ge in L. exact L.
  - exists c. split; [apply get_set_same | apply Qle_refl].
Qed.

Lemma keep_best_origin m c key v :
  ResultMap.get (keep_best m c) key = Some v ->
  ResultMap.get m key = Some v \/ v = c.
Proof.
  unfold keep_best. destruct (negb _ || _); [|left; assumption].
  destruct (list_eq_dec ascii_dec key (result_key (hit_payload c)))
    as [-> | Hne].
  - rewrite get_set_same. intros H. injection H as <-. right. reflexivity.
  - rewrite get_set_other by exact Hne. left. assumption.
Qed.

Lemma fold_keep_best_dominates cs :
  forall m, dominates (fold_left keep_best cs m) m.
Proof.
  induction cs as [|c cs IH]; intros m; simpl; [apply dominates_refl|].
  eapply dominates_trans; [apply keep_best_dominates | apply IH].
Qed.

Lemma fold_add_semantic_eq q pts :
  forall m,
    fold_left (Engine.add_semantic q) pts m
    = fold_left keep_best
        (map (fun p => {| score := sp_score p; searchQuery := q;
                          searchType := semantic;
                          hit_payload := sp_payload p |}) pts) m.
Proof.
  induction pts as [|p pts IH]; intros m; simpl; [reflexivity|]. apply IH.
Qed.

Lemma fold_add_full_text_eq q pts :
  forall m,
    fold_left (Engine.add_full_text q) pts m
    = fold_left keep_best
        (map (fun p => {| score := Scoring.textScore q (payload_ p);
                          searchQuery := q; searchType := full_text;
                          hit_payload := payload_ p |}) pts) m.
Proof.
  induction pts as [|p pts IH]; intros m; simpl; [reflexivity|]. apply IH.
Qed.

Lemma semantic_leg_dominates limit m q h m' h' :
  Engine.semantic_leg env limit m q h = (inr m', h') -> dominates m' m.
Proof.
  unfold Engine.semantic_leg, bind. intros E.
  destruct (Engine.generateEmbedding env q h) as [[e | v] h1]; [discriminate|].
  destruct (request _ _ h1) as [[e | res] h2]; [discriminate|].
  unfold ret in E. injection E as <- _.
  rewrite fold_add_semantic_eq. apply fold_keep_best_dominates.
Qed.

Lemma full_text_legs_dominate limit qs :
  forall m h,
    dominates (fst (Engine.addFullTextResults env qs m limit h)) m.
Proof.
  induction qs as [|q qs IH]; intros m h; cbn [Engine.addFullTextResults];
    [apply dominates_refl|].
  unfold Engine.full_text_leg, bind, request, ret.
  destruct (qdrant_scroll env h q (limit * 2)) as [e | res];
    [apply dominates_refl|].
  eapply dominates_trans; [|apply IH].
  destruct (points res); [|apply dominates_refl].
  rewrite fold_add_full_text_eq. apply fold_keep_best_dominates.
Qed.

Lemma keep_best_accounted qs m c :
  Forall (fun e => accounted qs (snd e)) m -> accounted qs c ->
  Forall (fun e => accounted qs (snd e)) (keep_best m c).
Proof. intros Hm Hc. apply (keep_best_Forall (accounted qs)); assumption. Qed.

Lemma semantic_leg_accounted qs limit m q h m' h' :
  In q qs ->
  Forall (fun e => accounted qs (snd e)) m ->
  Engine.semantic_leg env limit m q h = (inr m', h') ->
  Forall (fun e => accounted qs (snd e)) m'.
Proof.
  intros Hq Hm. unfold Engine.semantic_leg, bind. intros E.
  destruct (Engine.generateEmbedding env q h) as [[e | v] h1]; [discriminate|].
  destruct (request _ _ h1) as [[e | res] h2]; [discriminate|].
  unfold ret in E. injection E as <- _.
  revert m Hm. induction res as [|p res IH]; intros m Hm; simpl; [exact Hm|].
  apply IH. apply keep_best_accounted; [exact Hm|].
  split; [exact Hq | discriminate].
Qed.

Lemma semantic_legs_accounted qs limit l :
  incl l qs ->
  forall m h m' h',
    Forall (fun e => accounted qs (snd e)) m ->
    for_of l (Engine.semantic_leg env limit) m h = (inr m', h') ->
    Forall (fun e => accounted qs (snd e)) m'.
Proof.
  induction l as [|q l IH]; intros Hincl m h m' h' Hm E.
  - cbn in E. injection E as <- _. exact Hm.
  - cbn [for_of] in E. unfold bind in E.
    destruct (Engine.semantic_leg env limit m q h) as [[e | m1] h1] eqn:E1;
      [discriminate|].
    apply (IH (fun x Hx => Hincl x (or_intror Hx)) m1 h1 m' h'); [|exact E].
    exact (semantic_leg_accounted qs limit m q h m1 h1
             (Hincl q (or_introl eq_refl)) Hm E1).
Qed.

Lemma full_text_legs_accounted qs limit l :
  incl l qs ->
  forall m h,
    Forall (fun e => accounted qs (snd e)) m ->
    Forall (fun e => accounted qs (snd e))
           (fst (Engine.addFullTextResults env l m limit h)).
Proof.
  induction l as [|q l IH]; intros Hincl m h Hm;
    cbn [Engine.addFullTextResults]; [exact Hm|].
  unfold Engine.full_text_leg, bind, request, ret.
  destruct (qdrant_scroll env h q (limit * 2)) as [e | res]; [exact Hm|].
  apply (IH (fun x Hx => Hincl x (or_intror Hx))).
  destruct (points res) as [pts|]; [|exact Hm].
  revert m Hm. induction pts as [|p pts IHp]; intros m Hm; simpl; [exact Hm|].
  apply IHp. apply keep_best_accounted; [exact Hm|].
  split; [exact (Hincl q (or_introl eq_refl)) | reflexivity].
Qed.

End AccumulatorFacts.

(** X17: the lexical legs never lose a hit and never lower it: a key that
    the accumulator holds before [addFullTextResults] is still held after
    it, with a score that is not lower, whether the scrolls raise or not;
    and a semantic leg that runs through does the same. *)
Theorem legs_never_downgrade (env : services) (queries : list jstring)
  (m : ResultMap.t) (limit : nat) (h : history) :
  dominates (fst (Engine.addFullTextResults env queries m limit h)) m
  /\ forall q m' h',
       Engine.semantic_leg env limit m q h = (inr m', h') -> dominates m' m.
Proof.
  split; [apply full_text_legs_dominate|].
  intros q m' h' E. exact (semantic_leg_dominates env limit m q h m' h' E).
Qed.

Lemma legs_never_downgrade_witness :
  ResultMap.get [(result_key standup_payload, hit_06)]
                (result_key standup_payload) = Some hit_06
  /\ exists new,
       ResultMap.get
         (fst (Engine.addFullTextResults sample_services [str "meeting"]
                 [(result_key standup_payload, hit_06)] 5 []))
         (result_key standup_payload) = Some new
       /\ (score hit_06 <= score new)%Q.
Proof.
  assert (H : ResultMap.get [(result_key standup_payload, hit_06)]
                (result_key standup_payload) = Some hit_06) by reflexivity.
  split; [exact H|].
  exact (proj1 (legs_never_downgrade sample_services [str "meeting"]
                  [(result_key standup_payload, hit_06)] 5 [])
               (result_key standup_payload) hit_06 H).
Defined.

(** X18: filing a sequence of candidates keeps the best of every key:
    after all the conditional sets, every candidate finds under its key a
    hit whose score is at least its own, and every hit held is one that was
    held before or one of the candidates. *)
Theorem candidates_reduce_to_best (cs : list hit) (m : ResultMap.t) :
  (forall c, In c cs ->
     exists best,
       ResultMap.get (fold_left keep_best cs m) (result_key (hit_payload c))
       = Some best
       /\ (score c <= score best)%Q)
  /\ forall key v,
       ResultMap.get (fold_left keep_best cs m) key = Some v ->
       ResultMap.get m key = Some v \/ In v cs.
Proof.
  split.
  - revert m. induction cs as [|c0 cs IH]; intros m c Hc; [destruct Hc|].
    cbn [fold_left]. destruct Hc as [<- | Hc]; [|exact (IH _ c Hc)].
    destruct (keep_best_covers m c0) as (b & Hb & Lb).
    destruct (fold_keep_best_dominates cs (keep_best m c0) _ b Hb)
      as (best & Hbest & L).
    exists best. split; [exact Hbest | exact (Qle_trans _ _ _ Lb L)].
  - revert m. induction cs as [|c0 cs IH]; intros m key v H;
      [left; exact H|].
    cbn [fold_left] in H. destruct (IH _ key v H) as [H1 | H1].
    + destruct (keep_best_origin m c0 key v H1) as [H2 | ->];
        [left; exact H2 | right; left; reflexivity].
    + right. right. exact H1.
Qed.

Lemma candidates_reduce_to_best_witness :
  In hit_06 [hit_08; hit_06]
  /\ exists best,
       ResultMap.get (fold_left keep_best [hit_08; hit_06] [])
                     (result_key (hit_payload hit_06)) = Some best
       /\ (score hit_06 <= score best)%Q.
Proof.
  assert (H : In hit_06 [hit_08; hit_06]) by (right; left; reflexivity).
  split; [exact H|].
  exact (proj1 (candidates_reduce_to_best [hit_08; hit_06] []) hit_06 H).
Defined.

(** X19: every hit that a search returns is accounted for: the query
    recorded in it is one of the variants of the searched query, and if
    it is a lexical hit its score is the text score of its own payload for
    that variant, boost included. *)
Theorem returned_hits_accounted (env : services) (query : jstring)
  (limit : nat) (h : history) (hits : list hit) (h' : history) (x : hit) :
  Engine.search env query limit h = (inr hits, h') ->
  In x hits ->
  accounted (QueryExpander.expandQuery (getFullYear env) query) x.
Proof.
  intros E Hx.
  destruct (search_value env query limit h hits h' E)
    as (m1 & h1 & m2 & E1 & E2 & ->).
  set (qs := QueryExpander.expandQuery (getFullYear env) query) in *.
  assert (Hm1 : Forall (fun e => accounted qs (snd e)) m1).
  { exact (semantic_legs_accounted env qs limit qs (incl_refl qs) [] h m1 h1
             (Forall_nil _) E1). }
  assert (Hm2 : Forall (fun e => accounted qs (snd e)) m2).
  { replace m2 with (fst (Engine.addFullTextResults env qs m1 limit h1))
      by (rewrite E2; reflexivity).
    exact (full_text_legs_accounted env qs limit qs (incl_refl qs) m1 h1 Hm1). }
  assert (Hin : In x (ResultMap.values m2)).
  { apply (Permutation_in _ (js_sort_perm Engine.by_score_desc _)).
    rewrite <- (firstn_skipn limit (js_sort _ _)).
    apply in_or_app. left. exact Hx. }
  unfold ResultMap.values in Hin. apply in_map_iff in Hin.
  destruct Hin as (e & <- & He).
  rewrite Forall_forall in Hm2. exact (Hm2 e He).
Qed.

Lemma returned_hits_accounted_witness :
  exists hits h' x,
    Engine.search sample_services (str "launch") 5 [] = (inr hits, h')
    /\ In x hits
    /\ accounted (QueryExpander.expandQuery 2025 (str "launch")) x.
Proof.
  destruct (Engine.search sample_services (str "launch") 5 [])
    as [[e | hits] h'] eqn:E.
  - vm_compute in E. discriminate E.
  - destruct hits as [|x rest] eqn:Eh.
    + vm_compute in E. discriminate E.
    + exists (x :: rest), h', x. split; [reflexivity|].
      assert (Hx : In x (x :: rest)) by (left; reflexivity).
      split; [exact Hx|].
      exact (returned_hits_accounted sample_services (str "launch") 5 []
               (x :: rest) h' x E Hx).
Defined.

(* ------------------------------------------------------------------ *)
(** ** Indexer: a run that succeeds *)

Section IndexRuns.

Variable env : services.

Lemma embed_chunks_ok d chunks :
  forall i pts h pts' h',
    Engine.embed_chunks env d i chunks pts h = (inr pts', h') ->
    exists vs,
      length vs = length chunks
      /\ h' = h ++ embedding_events chunks vs
      /\ pts' = pts
                ++ map (fun icv => Engine.make_point d (fst (fst icv))
                                     (snd (fst icv)) (snd icv))
                       (combine (combine (seq i (length chunks)) chunks) vs).
Proof.
  induction chunks as [|c chunks IH]; intros i pts h pts' h' E.
  - cbn in E. injection E as <- <-. exists []. cbn. rewrite !app_nil_r. auto.
  - cbn [Engine.embed_chunks] in E. unfold bind in E.
    rewrite generateEmbedding_run in E.
    destruct (ollama_embeddings env h (Chunker.text c)) as [e | v];
      [discriminate|].
    destruct (IH _ _ _ _ _ E) as (vs & Hlen & -> & ->).
    exists (v :: vs). split; [cbn; rewrite Hlen; reflexivity|].
    split; [cbn; rewrite <- app_assoc; reflexivity|].
    cbn. rewrite <- app_assoc. reflexivity.
Qed.

Lemma embed_chunks_grows d chunks i pts :
  grows (Engine.embed_chunks env d i chunks pts).
Proof.
  intros h. pose proof (embed_chunks_run env d chunks i pts h) as R.
  destruct (Engine.embed_chunks env d i chunks pts h) as [[e | pts'] h1].
  - destruct R as (evs & prompt & -> & _). eexists. reflexivity.
  - destruct R as (evs & new & -> & _). eexists. reflexivity.
Qed.

Lemma processDocument_grows d : grows (Engine.processDocument env d).
Proof.
  unfold Engine.processDocument.
  apply grows_try_catch; [|intros e; apply grows_throw].
  apply grows_bind; [apply embed_chunks_grows|].
  intros pts. apply grows_request.
Qed.

(** The first request of [processDocument] is the embedding of the first
    chunk, which always exists. *)
Lemma processDocument_embeds_first d c rest :
  Chunker.chunkDocument d = c :: rest ->
  embeds_first (Chunker.text c) (Engine.processDocument env d).
Proof.
  intros Hc. unfold Engine.processDocument. rewrite Hc.
  apply embeds_first_try_catch; [|intros e; apply grows_throw].
  apply embeds_first_bind; [|intros pts; apply grows_request].
  cbn [Engine.embed_chunks]. apply embeds_first_bind.
  - apply generateEmbedding_first.
  - intros v. apply embed_chunks_grows.
Qed.

End IndexRuns.

(** X20: a run of [processDocument] that succeeds has requested the
    embedding of every chunk, in order, with the text of the chunk as the
    prompt, and then one upsert.  The point at position [i] has the id of
    [(document.id, i)], the index [i], the text of chunk [i], the vector
    returned for it and the path of the document: the ids and the payloads
    do not depend on the vectors. *)
Theorem successful_index (env : services) (d : document) (h h' : history) :
  Engine.processDocument env d h = (inr tt, h') ->
  let chunks := Chunker.chunkDocument d in
  exists vs pts,
    length vs = length chunks
    /\ h' = h ++ embedding_events chunks vs ++ [EvUpsert pts (inr tt)]
    /\ map id pts
       = map (generatePointId (doc_id d)) (seq 0 (length chunks))
    /\ map (fun p => chunk_index (payload_ p)) pts = seq 0 (length chunks)
    /\ map (fun p => text (payload_ p)) pts = map Chunker.text chunks
    /\ map vector_ pts = vs
    /\ Forall (fun p => file_path (payload_ p) = doc_path d) pts.
Proof.
  intros E chunks. unfold Engine.processDocument, try_catch, bind in E.
  fold chunks in E.
  destruct (Engine.embed_chunks env d 0 chunks [] h) as [[e | pts] h1] eqn:Ec.
  { cbn in E. discriminate E. }
  destruct (embed_chunks_ok env d chunks 0 [] h pts h1 Ec)
    as (vs & Hlen & -> & ->).
  unfold request in E. cbn [app] in E.
  destruct (qdrant_upsert env _ _) as [e | []] eqn:Eu;
    [cbn in E; discriminate E|].
  injection E as <-. eexists vs, _.
  split; [exact Hlen|]. split; [rewrite <- app_assoc; reflexivity|].
  clear Ec Eu. revert vs Hlen. generalize 0 as i.
  induction chunks as [|c cs IH]; intros i vs Hlen.
  - destruct vs; [|discriminate Hlen]. cbn. repeat split; constructor.
  - destruct vs as [|v vs]; [discriminate Hlen|].
    injection Hlen as Hlen.
    destruct (IH (S i) vs Hlen) as (H1 & H2 & H3 & H4 & H5).
    cbn [length seq combine map]. cbn [Engine.make_point id payload_ vector_
      chunk_index text file_path fst snd].
    rewrite H1, H2, H3, H4.
    repeat split. constructor; [reflexivity | exact H5].
Qed.

Lemma successful_index_witness :
  exists h',
    Engine.processDocument sample_services seam_example [] = (inr tt, h')
    /\ exists vs pts,
         length vs = length (Chunker.chunkDocument seam_example)
         /\ h' = [] ++ embedding_events (Chunker.chunkDocument seam_example) vs
                    ++ [EvUpsert pts (inr tt)]
         /\ map id pts
            = map (generatePointId (doc_id seam_example))
                  (seq 0 (length (Chunker.chunkDocument seam_example))).
Proof.
  destruct (Engine.processDocument sample_services seam_example [])
    as [[e | []] h'] eqn:E.
  - vm_compute in E. discriminate E.
  - exists h'. split; [reflexivity|].
    destruct (successful_index sample_services seam_example [] h' E)
      as (vs & pts & H1 & H2 & H3 & _).
    exists vs, pts. auto.
Defined.

(* ------------------------------------------------------------------ *)
(** ** The file watcher *)

Section WatcherFacts.

Variable nb : Watcher.notebook.
Variable env : services.

Lemma swallow_returns (m : M unit) h :
  fst (try_catch m (fun _ => ret tt) h) = inr tt.
Proof.
  unfold try_catch. destruct (m h) as [[e | []] h1]; reflexivity.
Qed.

Lemma grows_read {A} (f : history -> outcome A) : grows (Watcher.read f).
Proof. intros h. exists []. cbn. rewrite app_nil_r. reflexivity. Qed.

Lemma handleFileChange_grows filePath :
  grows (Watcher.handleFileChange nb env filePath).
Proof.
  unfold Watcher.handleFileChange.
  apply grows_try_catch; [|intros e; apply grows_ret].
  apply grows_bind; [apply grows_read|]. intros parsed.
  apply grows_bind; [apply grows_read|]. intros t.
  apply processDocument_grows.
Qed.

Lemma chunkDocument_of_content d d' :
  doc_content d = doc_content d' ->
  Chunker.chunkDocument d = Chunker.chunkDocument d'.
Proof. unfold Chunker.chunkDocument. intros ->. reflexivity. Qed.

(** A note that can be read is handed to the indexer: the embedding of
    its first chunk is requested. *)
Lemma handleFileChange_embeds filePath parsed h c rest :
  Watcher.read_note nb h filePath = inr parsed ->
  Chunker.chunkDocument (Watcher.document_of filePath parsed 0%N) = c :: rest ->
  exists r more,
    snd (Watcher.handleFileChange nb env filePath h)
    = h ++ EvEmbeddings (Chunker.text c) r :: more.
Proof.
  intros Hr Hc. unfold Watcher.handleFileChange, try_catch, bind, Watcher.read.
  rewrite Hr.
  set (d := Watcher.document_of filePath parsed (Watcher.now nb h)).
  assert (Hd : Chunker.chunkDocument d = c :: rest).
  { rewrite <- Hc. apply chunkDocument_of_content. reflexivity. }
  destruct (processDocument_embeds_first env d c rest Hd h) as (r & more & E).
  exists r, more.
  destruct (Engine.processDocument env d h) as [[e | u] h1]; cbn [snd] in *;
    exact E.
Qed.

Lemma processDocument_upserts d h :
  exists evs,
    snd (Engine.processDocument env d h) = h ++ evs
    /\ forall pts o,
         In (EvUpsert pts o) evs -> points_of d 0 (Chunker.chunkDocument d) pts.
Proof.
  unfold Engine.processDocument, try_catch, bind.
  pose proof (embed_chunks_run env d (Chunker.chunkDocument d) 0 [] h) as R.
  destruct (Engine.embed_chunks env d 0 (Chunker.chunkDocument d) [] h)
    as [[e | pts] h1].
  - destruct R as (evs & prompt & -> & Hevs).
    exists (evs ++ [EvEmbeddings prompt (inl e)]). split; [reflexivity|].
    intros pts o Hin. apply in_app_or in Hin.
    destruct Hin as [Hin | [Hin | []]]; [|discriminate Hin].
    destruct (embedded_not_upsert evs pts o Hevs Hin).
  - destruct R as (evs & new & -> & Hevs & _ & -> & Hnew).
    unfold request, throw. cbn [app].
    exists (evs ++ [EvUpsert new (qdrant_upsert env (h ++ evs) new)]).
    split.
    + destruct (qdrant_upsert env (h ++ evs) new); cbn [snd];
        rewrite app_assoc; reflexivity.
    + intros pts o Hin. apply in_app_or in Hin.
      destruct Hin as [Hin | [Hin | []]].
      * destruct (embedded_not_upsert evs pts o Hevs Hin).
      * injection Hin as <- _. exact Hnew.
Qed.

Lemma points_of_paths d i chunks pts :
  points_of d i chunks pts ->
  Forall (fun p => file_path (payload_ p) = doc_path d
                   /\ exists j, id p = generatePointId (doc_id d) j) pts.
Proof.
  unfold points_of. intros H.
  induction H as [|ic pt l pts (v & ->) _ IH]; constructor; [|exact IH].
  split; [reflexivity | eexists; reflexivity].
Qed.

Lemma handleFileChange_total filePath h :
  Watcher.handleFileChange nb env filePath h
  = (inr tt, snd (Watcher.handleFileChange nb env filePath h)).
Proof.
  pose proof (swallow_returns
                (parsed <- Watcher.read
                             (fun h0 => Watcher.read_note nb h0 filePath) ;;
                 lastModified <- Watcher.read
                                   (fun h0 => inr (Watcher.now nb h0)) ;;
                 Engine.processDocument env
                   (Watcher.document_of filePath parsed lastModified)) h)
    as Hok.
  fold (Watcher.handleFileChange nb env filePath) in Hok.
  destruct (Watcher.handleFileChange nb env filePath h) as [r h1].
  cbn [fst snd] in *. rewrite Hok. reflexivity.
Qed.

(** A pass over notes goes on after each of them. *)
Lemma pass_cons p l h :
  for_of (p :: l) (fun _ x => Watcher.handleFileChange nb env x) tt h
  = for_of l (fun _ x => Watcher.handleFileChange nb env x) tt
      (snd (Watcher.handleFileChange nb env p h)).
Proof.
  cbn [for_of]. unfold bind. rewrite handleFileChange_total. reflexivity.
Qed.

Lemma pass_attempts f parsed c rest :
  (forall h0, Watcher.read_note nb h0 f = inr parsed) ->
  Chunker.chunkDocument (Watcher.document_of f parsed 0%N) = c :: rest ->
  forall l h,
    In f l ->
    exists r,
      In (EvEmbeddings (Chunker.text c) r)
         (snd (for_of l (fun _ x => Watcher.handleFileChange nb env x) tt h)).
Proof.
  intros Hr Hc. induction l as [|p l IH]; intros h Hin; [destruct Hin|].
  rewrite pass_cons.
  destruct (list_eq_dec ascii_dec p f) as [-> | Hne].
  - destruct (handleFileChange_embeds f parsed h c rest (Hr h) Hc)
      as (r & more & E).
    rewrite E.
    destruct (grows_for_of (fun _ x => Watcher.handleFileChange nb env x) l
                (fun _ x => handleFileChange_grows x) tt
                (h ++ EvEmbeddings (Chunker.text c) r :: more))
      as [evs Hevs].
    exists r. rewrite Hevs. apply in_or_app. left.
    apply in_or_app. right. left. reflexivity.
  - destruct Hin as [Hin | Hin]; [contradiction|]. apply IH. exact Hin.
Qed.

End WatcherFacts.

(** X21: the handlers of the watcher never raise: whatever the file
    system, the embedding service and the store do, [handleFileChange],
    [handleFileDelete] and [processExistingFiles] end normally. *)
Theorem watcher_never_raises (nb : Watcher.notebook) (env : services)
  (filePath : jstring) (h : history) :
  fst (Watcher.handleFileChange nb env filePath h) = inr tt
  /\ fst (Watcher.handleFileDelete env filePath h) = inr tt
  /\ fst (Watcher.processExistingFiles nb env h) = inr tt.
Proof.
  split; [apply swallow_returns|]. split; apply swallow_returns.
Qed.

(** X22: a note that cannot be read or parsed causes no request at all, and
    neither does a notebook whose files cannot be listed. *)
Theorem unreadable_note_no_request (nb : Watcher.notebook) (env : services)
  (filePath : jstring) (h : history) (e : error) :
  (Watcher.read_note nb h filePath = inl e ->
   Watcher.handleFileChange nb env filePath h = (inr tt, h))
  /\ (Watcher.list_notes nb h = inl e ->
      Watcher.processExistingFiles nb env h = (inr tt, h)).
Proof.
  split; intros H.
  - unfold Watcher.handleFileChange, try_catch, bind, Watcher.read.
    rewrite H. reflexivity.
  - unfold Watcher.processExistingFiles, try_catch, bind, Watcher.read.
    rewrite H. reflexivity.
Qed.

Lemma unreadable_note_no_request_witness :
  Watcher.read_note sample_notebook [] (str "broken.md")
  = inl (Error (str "ENOENT: no such file or directory"))
  /\ Watcher.handleFileChange sample_notebook sample_services
       (str "broken.md") [] = (inr tt, []).
Proof.
  split; [reflexivity|].
  exact (proj1 (unreadable_note_no_request sample_notebook sample_services
                  (str "broken.md") []
                  (Error (str "ENOENT: no such file or directory")))
               eq_refl).
Defined.

(** X23: the initial pass attempts every listed note, whatever happened to
    the notes before it: for every listed note that can be read, the
    embedding of its first chunk has been requested when
    [processExistingFiles] ends. *)
Theorem every_listed_note_attempted (nb : Watcher.notebook) (env : services)
  (h : history) (files : list jstring) (f : jstring)
  (parsed : jstring * frontmatter) (c : Chunker.chunk)
  (rest : list Chunker.chunk) :
  Watcher.list_notes nb h = inr files ->
  In f files ->
  (forall h0, Watcher.read_note nb h0 f = inr parsed) ->
  Chunker.chunkDocument (Watcher.document_of f parsed 0%N) = c :: rest ->
  exists r,
    In (EvEmbeddings (Chunker.text c) r)
       (snd (Watcher.processExistingFiles nb env h)).
Proof.
  intros Hl Hf Hr Hc.
  destruct (pass_attempts nb env f parsed c rest Hr Hc files h Hf) as [r Hin].
  exists r.
  unfold Watcher.processExistingFiles, try_catch, bind, Watcher.read.
  rewrite Hl.
  destruct (for_of files _ tt h) as [[e | u] h2]; exact Hin.
Qed.

Lemma every_listed_note_attempted_witness :
  Watcher.list_notes sample_notebook [] = inr [str "broken.md"; str "plan.md"]
  /\ In (str "plan.md") [str "broken.md"; str "plan.md"]
  /\ exists r,
       In (EvEmbeddings (str "# Plan" ++ ["010"%char] ++ str "water the #garden")
             r)
          (snd (Watcher.processExistingFiles sample_notebook sample_services
                  [])).
Proof.
  split; [reflexivity|].
  assert (Hin : In (str "plan.md") [str "broken.md"; str "plan.md"])
    by (right; left; reflexivity).
  split; [exact Hin|].
  exact (every_listed_note_attempted sample_notebook sample_services []
           [str "broken.md"; str "plan.md"] (str "plan.md")
           (str "# Plan" ++ ["010"%char] ++ str "water the #garden",
            {| fm_title := None; fm_tags_field := None; fm_rest := [] |})
           {| Chunker.text := str "# Plan" ++ ["010"%char]
                              ++ str "water the #garden";
              Chunker.start := 0 |} []
           eq_refl Hin (fun _ => eq_refl) eq_refl).
Defined.

(** X24: indexing and deleting agree on the path: every point that
    [handleFileChange] upserts for a file carries the path of the file as
    [file_path] and an id derived from that path, and [handleFileDelete]
    asks once for the deletion of the points with exactly that path. *)
Theorem index_and_delete_agree (nb : Watcher.notebook) (env : services)
  (filePath : jstring) (h : history) :
  (exists evs,
     snd (Watcher.handleFileChange nb env filePath h) = h ++ evs
     /\ forall pts o,
          In (EvUpsert pts o) evs ->
          Forall (fun p => file_path (payload_ p) = filePath
                           /\ exists i, id p = generatePointId filePath i)
                 pts)
  /\ snd (Watcher.handleFileDelete env filePath h)
     = h ++ [EvDelete filePath (qdrant_delete env h filePath)].
Proof.
  split.
  - unfold Watcher.handleFileChange, try_catch, bind, Watcher.read.
    destruct (Watcher.read_note nb h filePath) as [e | parsed].
    + exists []. cbn. rewrite app_nil_r. split; [reflexivity|].
      intros pts o [].
    + set (d := Watcher.document_of filePath parsed (Watcher.now nb h)).
      destruct (processDocument_upserts env d h) as (evs & E & Hup).
      exists evs. split.
      * destruct (Engine.processDocument env d h) as [[e | u] h1];
          cbn [snd] in *; exact E.
      * intros pts o Hin.
        exact (points_of_paths d 0 _ pts (Hup pts o Hin)).
  - unfold Watcher.handleFileDelete, Engine.deleteDocument, try_catch, request,
      throw, ret.
    destruct (qdrant_delete env h filePath); reflexivity.
Qed.

Lemma index_and_delete_agree_witness :
  exists evs pts o,
    snd (Watcher.handleFileChange sample_notebook sample_services
           (str "plan.md") []) = [] ++ evs
    /\ In (EvUpsert pts o) evs
    /\ Forall (fun p => file_path (payload_ p) = str "plan.md"
                        /\ exists i, id p = generatePointId (str "plan.md") i)
              pts.
Proof.
  destruct (proj1 (index_and_delete_agree sample_notebook sample_services
                     (str "plan.md") [])) as (evs & E & H).
  cbn [app] in E.
  destruct (snd (Watcher.handleFileChange sample_notebook sample_services
                   (str "plan.md") [])) as [|e1 [|e2 more]] eqn:Es.
  - vm_compute in Es. discriminate Es.
  - vm_compute in Es. discriminate Es.
  - destruct e2 as [| | |pts o|].
    1-3,5: vm_compute in Es; discriminate Es.
    exists evs, pts, o. split; [exact E|].
    assert (Hin : In (EvUpsert pts o) evs)
      by (rewrite <- E; right; left; reflexivity).
    split; [exact Hin | exact (H pts o Hin)].
Defined.

(* ------------------------------------------------------------------ *)
(** ** The collection of the store *)

(** X25: [ensureCollection] looks the collection up once.  If the lookup
    succeeds nothing else is requested.  If it fails, for whatever reason,
    the collection obsidian_notes is created with vectors of size 768 and
    the cosine distance; the error of the lookup is dropped, and the call
    fails exactly when the creation fails, with the error of the
    creation.  [initialize] behaves as [ensureCollection]. *)
Theorem collection_created_when_missing (api : Setup.collections)
  (h : list Setup.event) :
  (forall u,
     Setup.getCollection api h Setup.collectionName = inr u ->
     Setup.ensureCollection api h
     = (inr tt, h ++ [Setup.EvGetCollection Setup.collectionName (inr u)]))
  /\ (forall e,
        Setup.getCollection api h Setup.collectionName = inl e ->
        let h1 := h ++ [Setup.EvGetCollection Setup.collectionName (inl e)] in
        let config := {| Setup.size := 768; Setup.distance := str "Cosine" |} in
        let created :=
          Setup.createCollection api h1 (str "obsidian_notes") config in
        snd (Setup.ensureCollection api h)
        = h1 ++ [Setup.EvCreateCollection (str "obsidian_notes") config created]
        /\ (forall u, created = inr u ->
                      fst (Setup.ensureCollection api h) = inr tt)
        /\ (forall e', created = inl e' ->
                       fst (Setup.ensureCollection api h) = inl e'))
  /\ Setup.initialize api h = Setup.ensureCollection api h.
Proof.
  split; [|split].
  - intros u H. unfold Setup.ensureCollection. rewrite H. reflexivity.
  - intros e H h1 config created. unfold Setup.ensureCollection.
    rewrite H. fold h1. cbn [fst snd].
    split; [reflexivity|].
    split; intros x Hx; unfold created in Hx;
      change (str "obsidian_notes") with Setup.collectionName in Hx;
      fold config; rewrite Hx; reflexivity.
  - unfold Setup.initialize.
    destruct (Setup.ensureCollection api h) as [[e | u] h']; reflexivity.
Qed.

Lemma collection_created_when_missing_witness :
  Setup.getCollection fresh_store [] Setup.collectionName
  = inl (Error (str "Not Found"))
  /\ snd (Setup.ensureCollection fresh_store [])
     = ([] ++ [Setup.EvGetCollection Setup.collectionName
                 (inl (Error (str "Not Found")))])
       ++ [Setup.EvCreateCollection (str "obsidian_notes")
             {| Setup.size := 768; Setup.distance := str "Cosine" |}
             (Setup.createCollection fresh_store
                ([] ++ [Setup.EvGetCollection Setup.collectionName
                          (inl (Error (str "Not Found")))])
                (str "obsidian_notes")
                {| Setup.size := 768; Setup.distance := str "Cosine" |})]
  /\ fst (Setup.ensureCollection fresh_store []) = inr tt.
Proof.
  assert (H : Setup.getCollection fresh_store [] Setup.collectionName
              = inl (Error (str "Not Found"))) by reflexivity.
  destruct (proj1 (proj2 (collection_created_when_missing fresh_store []))
              (Error (str "Not Found")) H) as (H1 & H2 & _).
  split; [exact H|]. split; [exact H1|].
  exact (H2 tt eq_refl).
Defined.

(* ------------------------------------------------------------------ *)
(** ** The [search_notes] tool *)

Section ToolFacts.



End ToolFacts.




